(** * overlord: process supervisor (src/process.rs) and registry actor (src/lib.rs)

    Shallow embedding of the supervision thread started by [launch] and of the
    [Overlord] actor loop.  A [_Process] record is shared (Arc<Mutex<..>>)
    between every thread launched on it and external readers; each step below
    is one critical section of the source (one [lock()] scope), so the record
    is observed only between steps.  Operating-system answers (the pid of a
    spawned child, the result of [try_wait], the lines available on the
    child's stdout/stderr, the outcome of writing to its stdin) are inputs of
    the steps. *)

From Stdlib Require Import String ZArith NArith Lia.
From stdpp Require Import base list gmap.

Open Scope N_scope.

(** ** Data model *)

(** [enum State] *)
Inductive State := Stopped | Starting | Running | Restarting | Failed.

#[global] Instance State_eq_dec : EqDecision State.
Proof. solve_decision. Defined.

Definition State_eqb (a b : State) : bool :=
  match a, b with
  | Stopped, Stopped | Starting, Starting | Running, Running
  | Restarting, Restarting | Failed, Failed => true
  | _, _ => false
  end.

(** [u64] values are [N] below [u64_modulus]; [+= 1] wraps (release build). *)
Definition u64_modulus : N := 2 ^ 64.
Definition u64_add (a b : N) : N := (a + b) mod u64_modulus.

(** A Rust [String] as a Rocq [string] (each [ascii] is one byte);
    [as_bytes] is then the list of its bytes. *)
Definition as_bytes (s : string) : list Byte.byte := String.list_byte_of_string s.

(** [struct _Process], fields relevant to the lifecycle and to stdio.
    - [stdin_queue]: messages sent on [stdin] not yet received from
      [stdin_receiver];
    - [stdout_chan], [stderr_chan]: lines sent on [stdout_sender] /
      [stderr_sender] and not yet received by a reader;
    - [stdin_writer]: [None], or [Some w] where [w] are the bytes written
      through the current [BufWriter<ChildStdin>];
    - [stdout_reader], [stderr_reader]: whether the [BufReader]s are set;
    - [child]: the pid of the child stored in [p.child];
    - [handle]: whether the [JoinHandle] has been stored. *)
Record _Process := mk_Process {
  handle : bool;
  name : string;
  path : string;
  args : list string;
  restart_delay : N;
  cwd : option string;
  state : State;
  exit_status : option Z;
  restart_count : N;
  max_restart_count : N;
  pid : option N;
  stdin_queue : list string;
  stdout_chan : list string;
  stderr_chan : list string;
  stdin_writer : option (list Byte.byte);
  stdout_reader : bool;
  stderr_reader : bool;
  child : option N
}.

(** [Runnable::define_process] *)
Definition define_process (name path : string) (args : list string)
    (restart_delay : option N) (cwd : option string) : _Process :=
  {| handle := false;
     name := name;
     path := path;
     args := args;
     restart_delay := default 0 restart_delay;
     cwd := cwd;
     state := Stopped;
     exit_status := None;
     restart_count := 0;
     max_restart_count := 5;
     pid := None;
     stdin_queue := [];
     stdout_chan := [];
     stderr_chan := [];
     stdin_writer := None;
     stdout_reader := false;
     stderr_reader := false;
     child := None |}.

(** Field updates used by the steps. *)
Definition set_state (st : State) (p : _Process) : _Process :=
  {| handle := handle p; name := name p; path := path p; args := args p;
     restart_delay := restart_delay p; cwd := cwd p; state := st;
     exit_status := exit_status p; restart_count := restart_count p;
     max_restart_count := max_restart_count p; pid := pid p;
     stdin_queue := stdin_queue p; stdout_chan := stdout_chan p;
     stderr_chan := stderr_chan p; stdin_writer := stdin_writer p;
     stdout_reader := stdout_reader p; stderr_reader := stderr_reader p;
     child := child p |}.

Definition set_handle (p : _Process) : _Process :=
  {| handle := true; name := name p; path := path p; args := args p;
     restart_delay := restart_delay p; cwd := cwd p; state := state p;
     exit_status := exit_status p; restart_count := restart_count p;
     max_restart_count := max_restart_count p; pid := pid p;
     stdin_queue := stdin_queue p; stdout_chan := stdout_chan p;
     stderr_chan := stderr_chan p; stdin_writer := stdin_writer p;
     stdout_reader := stdout_reader p; stderr_reader := stderr_reader p;
     child := child p |}.

(** Lines 138-144: new reader/writers, [state = Running], [pid], [child]. *)
Definition set_spawned (id : N) (p : _Process) : _Process :=
  {| handle := handle p; name := name p; path := path p; args := args p;
     restart_delay := restart_delay p; cwd := cwd p; state := Running;
     exit_status := exit_status p; restart_count := restart_count p;
     max_restart_count := max_restart_count p; pid := Some id;
     stdin_queue := stdin_queue p; stdout_chan := stdout_chan p;
     stderr_chan := stderr_chan p; stdin_writer := Some [];
     stdout_reader := true; stderr_reader := true;
     child := Some id |}.

(** Lines 159-173: forward the available stdout/stderr lines. *)
Definition relay_output (out err : list string) (p : _Process) : _Process :=
  {| handle := handle p; name := name p; path := path p; args := args p;
     restart_delay := restart_delay p; cwd := cwd p; state := state p;
     exit_status := exit_status p; restart_count := restart_count p;
     max_restart_count := max_restart_count p; pid := pid p;
     stdin_queue := stdin_queue p;
     stdout_chan := if stdout_reader p then stdout_chan p ++ out else stdout_chan p;
     stderr_chan := if stderr_reader p then stderr_chan p ++ err else stderr_chan p;
     stdin_writer := stdin_writer p;
     stdout_reader := stdout_reader p; stderr_reader := stderr_reader p;
     child := child p |}.

Definition set_stdin (q : list string) (w : option (list Byte.byte)) (p : _Process)
    : _Process :=
  {| handle := handle p; name := name p; path := path p; args := args p;
     restart_delay := restart_delay p; cwd := cwd p; state := state p;
     exit_status := exit_status p; restart_count := restart_count p;
     max_restart_count := max_restart_count p; pid := pid p;
     stdin_queue := q; stdout_chan := stdout_chan p;
     stderr_chan := stderr_chan p; stdin_writer := w;
     stdout_reader := stdout_reader p; stderr_reader := stderr_reader p;
     child := child p |}.

Definition set_exit_status (e : option Z) (p : _Process) : _Process :=
  {| handle := handle p; name := name p; path := path p; args := args p;
     restart_delay := restart_delay p; cwd := cwd p; state := state p;
     exit_status := e; restart_count := restart_count p;
     max_restart_count := max_restart_count p; pid := pid p;
     stdin_queue := stdin_queue p; stdout_chan := stdout_chan p;
     stderr_chan := stderr_chan p; stdin_writer := stdin_writer p;
     stdout_reader := stdout_reader p; stderr_reader := stderr_reader p;
     child := child p |}.

(** Lines 240-241: [restart_count += 1; state = Restarting]. *)
Definition set_restarting (p : _Process) : _Process :=
  {| handle := handle p; name := name p; path := path p; args := args p;
     restart_delay := restart_delay p; cwd := cwd p; state := Restarting;
     exit_status := exit_status p; restart_count := u64_add (restart_count p) 1;
     max_restart_count := max_restart_count p; pid := pid p;
     stdin_queue := stdin_queue p; stdout_chan := stdout_chan p;
     stderr_chan := stderr_chan p; stdin_writer := stdin_writer p;
     stdout_reader := stdout_reader p; stderr_reader := stderr_reader p;
     child := child p |}.

(** ** The supervision thread of [launch] *)

(** [&v[n..]]: panics (here [None]) when [n > v.len()]. *)
Definition slice_from (n : nat) (l : list string) : option (list string) :=
  if (n <=? length l)%nat then Some (drop n l) else None.

(** Result of [child.try_wait()]: [Ok(Some(status))] with [status.code()],
    [Ok(None)], or [Err(e)]. *)
Inductive TryWait := TWExited (code : option Z) | TWRunning | TWErr.

(** The value [exit_status] the inner loop breaks with: [Ok(code)] or [Err(e)]. *)
Inductive ExitRes := ExOk (code : option Z) | ExErr.

(** Control points of the thread spawned by [launch]:
    - [PSpawn]: top of the outer [loop] (lines 119-146);
    - [PPoll c]: inner supervisor loop on the child with pid [c] (149-210);
    - [PDecide r]: after the inner loop broke with [r] (215-243);
    - [PSleep d]: [thread::sleep(restart_delay)] (245);
    - [PDone]: the closure returned; [PPanic]: the thread panicked. *)
Inductive PC :=
  | PSpawn
  | PPoll (c : N)
  | PDecide (r : ExitRes)
  | PSleep (d : N)
  | PDone
  | PPanic.

(** What the operating system answers during one step of a thread:
    [ASpawn r]: [cmd.spawn()] gives a child with pid [id] ([Some id]) or an
    error ([None]); [APoll out err ok tw]: lines available on the child's
    stdout and stderr, whether [write_all] on stdin succeeds, and the answer
    of [try_wait]; [ADecide]: the decision after the inner loop; [AWake]: the
    restart delay elapsed. *)
Inductive Action :=
  | ASpawn (r : option N)
  | APoll (out err : list string) (ok : bool) (tw : TryWait)
  | ADecide
  | AWake.

(** Lines 175-181: receive at most one queued message and write its bytes
    through the stdin [BufWriter]; [None] when [write_all] fails and
    [expect] panics (the message has been received by then). *)
Definition flush_stdin (ok : bool) (p : _Process) : _Process * bool :=
  match stdin_writer p with
  | Some w =>
      match stdin_queue p with
      | input :: rest =>
          if ok then (set_stdin rest (Some (w ++ as_bytes input)) p, true)
          else (set_stdin rest (Some w) p, false)
      | [] => (p, true)
      end
  | None => (p, true)
  end.

(** One step of the supervision thread at control point [pc] on the shared
    record [p]; [None] when the action does not belong to [pc]. *)
Definition thread_step (a : Action) (pc : PC) (p : _Process)
    : option (PC * _Process) :=
  match a, pc with
  | ASpawn r, PSpawn =>
      match slice_from 1 (args p) with
      | None => Some (PPanic, p)                    (* args[1..] out of range *)
      | Some _ =>
          match r with
          | None => Some (PPanic, p)                (* "Failed to run binary" *)
          | Some id => Some (PPoll id, set_spawned id p)
          end
      end
  | APoll out err ok tw, PPoll c =>
      let p1 := relay_output out err p in
      let '(p2, wrote) := flush_stdin ok p1 in
      if negb wrote then Some (PPanic, p2)        (* "Could not write to stdin" *)
      else
        match tw with
        | TWExited code => Some (PDecide (ExOk code), set_exit_status code p2)
        | TWErr => Some (PDecide ExErr, p2)
        | TWRunning => Some (PPoll c, p2)
        end
  | ADecide, PDecide r =>
      match r with
      | ExErr => Some (PDone, set_state Failed p)
      | ExOk _ =>
          if max_restart_count p <=? restart_count p
          then Some (PDone, set_state Failed p)
          else Some (PSleep (restart_delay p), set_restarting p)
      end
  | AWake, PSleep _ => Some (PSpawn, p)
  | _, _ => None
  end.

(** The shared record and every thread launched on it. *)
Record Sys := mk_Sys { rec : _Process; threads : list PC }.

(** Events: [launch] (a new thread, then the [JoinHandle] is stored), an
    external [stdin.send(m)], or a step of thread [i].  A thread of a
    record whose lock is poisoned would panic at its next
    [lock().unwrap()]; the steps let it go on instead, which only adds
    behaviours. *)
Inductive Event :=
  | ELaunch
  | ESend (m : string)
  | EThread (i : nat) (a : Action).

Definition is_panic (pc : PC) : bool :=
  match pc with PPanic => true | _ => false end.

(** The record's [Mutex] is poisoned once a thread has panicked while
    holding it; every panic of a supervision thread above happens inside a
    [lockable.lock()] scope (lines 120-146 and 149-210). *)
Definition poisoned (s : Sys) : bool := existsb is_panic (threads s).

(** [Runnable::launch] (lines 112-249), first half: the new supervision
    thread starts at the top of its outer loop. *)
Definition add_thread (s : Sys) : Sys := mk_Sys (rec s) (threads s ++ [PSpawn]).

(** Second half, line 248: [self.lock().unwrap().handle = handle]; [None]
    when the lock is poisoned and [unwrap] panics in the caller. *)
Definition store_handle (s : Sys) : option Sys :=
  if poisoned s then None else Some (mk_Sys (set_handle (rec s)) (threads s)).

(** [launch] seen from the record: the thread is added, and the handle is
    stored unless the lock is poisoned (the caller then panics, the record
    keeps the new thread).  When [thread::Builder::spawn] fails, [expect]
    panics before anything is added: the record sees no event at all. *)
Definition launch (s : Sys) : Sys :=
  let s1 := add_thread s in default s1 (store_handle s1).

Definition step (e : Event) (s : Sys) : option Sys :=
  match e with
  | ELaunch => Some (launch s)
  | ESend m =>
      Some (mk_Sys (set_stdin (stdin_queue (rec s) ++ [m])
                              (stdin_writer (rec s)) (rec s)) (threads s))
  | EThread i a =>
      match threads s !! i with
      | None => None
      | Some pc =>
          match thread_step a pc (rec s) with
          | None => None
          | Some (pc', p') => Some (mk_Sys p' (<[i := pc']> (threads s)))
          end
      end
  end.

Fixpoint run (es : list Event) (s : Sys) : option Sys :=
  match es with
  | [] => Some s
  | e :: es' =>
      match step e s with
      | None => None
      | Some s' => run es' s'
      end
  end.

Definition init_sys (p : _Process) : Sys := mk_Sys p [].

(** The system after [es], or [s] itself when [es] cannot be run. *)
Definition final (es : list Event) (s : Sys) : Sys := default s (run es s).

(** [from_argv!(["ls", "-la"], "/", 1000)] *)
Definition ls_la : _Process :=
  define_process "ls"%string "ls"%string ["ls"%string; "-la"%string] (Some 1000)
    (Some "/"%string).

Example ls_la_restarts_once :
  option_map (fun s => (state (rec s), exit_status (rec s), restart_count (rec s),
                        pid (rec s), threads s))
    (run [ELaunch; EThread 0 (ASpawn (Some 42));
          EThread 0 (APoll ["total 0"%string] [] true (TWExited (Some 0%Z)));
          EThread 0 ADecide] (init_sys ls_la))
  = Some (Restarting, Some 0%Z, 1, Some 42, [PSleep 1000]).
Proof. reflexivity. Qed.

(** ** The registry actor ([Overlord], src/lib.rs) *)

(** Records are [Arc] handles; a handle is a key of the store of shared
    records, each with the threads launched on it. *)
Inductive Command := Spawn (h : nat) | Quit.

(** What the actor does, in order, for the trace of its loop. *)
Inductive ActorEv := EvPush (h : nat) | EvLaunch (h : nat).

(** The [overlord] thread of [Overlord::new]: waiting in [rx.recv()]
    ([AAlive]); inside [p.launch()] for handle [h], between the creation of
    the supervision thread and line 248 ([ALaunching h]); returned from its
    closure after [Quit] ([AExited]); or panicked ([ADead]), which drops
    [rx] and leaves the list's mutex poisoned. *)
Inductive AStatus := AAlive | ALaunching (h : nat) | AExited | ADead.

(** The thread owning the [Overlord]: free to call its methods
    ([CActive]); inside [quit], blocked in [handle.join()] ([CJoining]);
    returned from [quit] ([CReturned]); or panicked in one of the
    [unwrap]s of [spawn] or [quit] ([CPanicked]). *)
Inductive CStatus := CActive | CJoining | CReturned | CPanicked.

(** The registry, the records it can reach and the two threads.  [sent_cmds] and
    [received_cmds] are history fields for the statements: the commands sent on
    [channel] and those returned by [rx.recv()], in order. *)
Record World := mk_World {
  chan : list Command;          (* sent, not yet received *)
  processes : list nat;         (* the [SharedProcessList] *)
  store : gmap nat Sys;         (* the records behind the handles *)
  trace : list ActorEv;
  status : AStatus;
  caller : CStatus;
  sent_cmds : list Command;
  received_cmds : list Command
}.

(** The steps of the program, in any interleaving:
    - [WRecv b]: the actor receives the next command; for [Spawn(p)] it
      pushes [p] on the list and calls [p.launch()], whose
      [thread::Builder::spawn] succeeds ([b = true]) or fails ([expect]
      panics);
    - [WStore]: line 248 of that [launch] in the actor;
    - [WSup h e]: any event [e] on the record of [h] (a step of one of its
      supervision threads, an external stdin send, a [launch] by another
      thread);
    - [WSpawn h], [WQuit]: the caller's [spawn(p)], the [send] of [quit()];
    - [WJoin]: [handle.join()] in [quit()] returns. *)
Inductive WEvent :=
  | WRecv (b : bool)
  | WStore
  | WSup (h : nat) (e : Event)
  | WSpawn (h : nat)
  | WQuit
  | WJoin.

Definition set_status (a : AStatus) (W : World) : World :=
  {| chan := chan W; processes := processes W; store := store W;
     trace := trace W; status := a; caller := caller W; sent_cmds := sent_cmds W;
     received_cmds := received_cmds W |}.

Definition set_store (st : gmap nat Sys) (W : World) : World :=
  {| chan := chan W; processes := processes W; store := st;
     trace := trace W; status := status W; caller := caller W; sent_cmds := sent_cmds W;
     received_cmds := received_cmds W |}.

Definition set_caller (c : CStatus) (W : World) : World :=
  {| chan := chan W; processes := processes W; store := store W;
     trace := trace W; status := status W; caller := c; sent_cmds := sent_cmds W;
     received_cmds := received_cmds W |}.

(** [channel.send(c)] while the receiver is alive. *)
Definition send_cmd (c : Command) (W : World) : World :=
  {| chan := chan W ++ [c]; processes := processes W; store := store W;
     trace := trace W; status := status W; caller := caller W;
     sent_cmds := sent_cmds W ++ [c]; received_cmds := received_cmds W |}.

(** Whether [rx] has been dropped: the actor's closure has returned or
    unwound; [send] then returns [Err] and [unwrap] panics. *)
Definition receiver_gone (a : AStatus) : bool :=
  match a with AExited | ADead => true | _ => false end.

(** One step; [None] when the thread that would take it cannot. *)
Definition world_step (w : WEvent) (W : World) : option World :=
  match w with
  | WRecv b =>
      match status W, chan W with
      | AAlive, Spawn h :: q =>
          (* lines 48-51: push under the list lock, then [p.launch()] *)
          match store W !! h with
          | None => None
          | Some s =>
              Some {| chan := q; processes := processes W ++ [h];
                      store := if b then <[h := add_thread s]> (store W) else store W;
                      trace := trace W ++ [EvPush h; EvLaunch h];
                      status := if b then ALaunching h else ADead;
                      caller := caller W; sent_cmds := sent_cmds W;
                      received_cmds := received_cmds W ++ [Spawn h] |}
          end
      | AAlive, Quit :: q =>
          (* lines 53-56: [break] *)
          Some {| chan := q; processes := processes W; store := store W;
                  trace := trace W; status := AExited; caller := caller W;
                  sent_cmds := sent_cmds W; received_cmds := received_cmds W ++ [Quit] |}
      | _, _ => None
      end
  | WStore =>
      match status W with
      | ALaunching h =>
          match store W !! h with
          | None => None
          | Some s =>
              match store_handle s with
              | Some s' => Some (set_status AAlive (set_store (<[h := s']> (store W)) W))
              | None => Some (set_status ADead W)
              end
          end
      | _ => None
      end
  | WSup h e =>
      match store W !! h with
      | None => None
      | Some s =>
          match step e s with
          | None => None
          | Some s' => Some (set_store (<[h := s']> (store W)) W)
          end
      end
  | WSpawn h =>
      match caller W with
      | CActive =>
          if receiver_gone (status W) then Some (set_caller CPanicked W)
          else Some (send_cmd (Spawn h) W)
      | _ => None
      end
  | WQuit =>
      match caller W with
      | CActive =>
          if receiver_gone (status W) then Some (set_caller CPanicked W)
          else Some (set_caller CJoining (send_cmd Quit W))
      | _ => None
      end
  | WJoin =>
      match caller W, status W with
      | CJoining, AExited => Some (set_caller CReturned W)
      | CJoining, ADead => Some (set_caller CPanicked W)   (* [join()] is [Err] *)
      | _, _ => None
      end
  end.

Fixpoint run_world (ws : list WEvent) (W : World) : option World :=
  match ws with
  | [] => Some W
  | w :: ws' =>
      match world_step w W with
      | None => None
      | Some W' => run_world ws' W'
      end
  end.

(** The world after [ws], or [W] itself when [ws] cannot be run. *)
Definition final_world (ws : list WEvent) (W : World) : World :=
  default W (run_world ws W).

(** [Overlord::new]: empty list, empty channel, the actor waiting (when
    the [overlord] thread cannot be created, [new] panics and there is no
    registry).  The caller keeps its [Overlord] until [quit]: dropping it
    earlier would make [rx.recv()] fail and the actor panic. *)
Definition overlord_new (st : gmap nat Sys) : World :=
  mk_World [] [] st [] AAlive CActive [] [].

(** The handles of the [Spawn] commands of a sequence, in order. *)
Definition spawned (cs : list Command) : list nat :=
  flat_map (fun c => match c with Spawn h => [h] | Quit => [] end) cs.

(** The actor's trace for the spawns of [hs]: each push, then its launch. *)
Definition pushes_then_launches (hs : list nat) : list ActorEv :=
  flat_map (fun h => [EvPush h; EvLaunch h]) hs.

(** ** Auxiliary definitions for the statements *)

(** The lifecycle fields of a record. *)
Definition lifecycle (p : _Process) : State * option Z * N * N * option N :=
  (state p, exit_status p, restart_count p, max_restart_count p, pid p).

Definition is_launch (e : Event) : bool :=
  match e with ELaunch => true | _ => false end.

Definition launches (es : list Event) : nat := length (List.filter is_launch es).

(** Whether a thread has passed a successful spawn. *)
Definition started (pc : PC) : bool :=
  match pc with PSpawn | PPanic => false | _ => true end.

(** ** General lemmas on the steps *)

Lemma poisoned_add_thread s : poisoned (add_thread s) = poisoned s.
Proof.
  unfold poisoned, add_thread. simpl. rewrite existsb_app. simpl.
  apply orb_false_r.
Qed.

Lemma launch_eq s :
  launch s = mk_Sys (if poisoned s then rec s else set_handle (rec s))
                    (threads s ++ [PSpawn]).
Proof.
  unfold launch, store_handle. rewrite poisoned_add_thread.
  destruct (poisoned s); reflexivity.
Qed.

Lemma launch_threads s : threads (launch s) = threads s ++ [PSpawn].
Proof. rewrite launch_eq. reflexivity. Qed.

(** [launch] writes no field of the record but [handle]. *)
Lemma launch_rec s : rec (launch s) = rec s \/ rec (launch s) = set_handle (rec s).
Proof. rewrite launch_eq. simpl. destruct (poisoned s); auto. Qed.

Lemma relay_output_lifecycle out err p :
  lifecycle (relay_output out err p) = lifecycle p.
Proof. reflexivity. Qed.

Lemma flush_stdin_lifecycle ok p :
  lifecycle (fst (flush_stdin ok p)) = lifecycle p.
Proof.
  unfold flush_stdin.
  destruct (stdin_writer p), (stdin_queue p), ok; reflexivity.
Qed.

Lemma lifecycle_eq p q :
  lifecycle p = lifecycle q ->
  state p = state q /\ exit_status p = exit_status q /\
  restart_count p = restart_count q /\
  max_restart_count p = max_restart_count q /\ pid p = pid q.
Proof. unfold lifecycle. intros H. inversion H. tauto. Qed.

(** A poll step changes no lifecycle field but [exit_status], which it sets
    to the code of an observed exit. *)
Lemma poll_step_shape out err ok tw c p pc' p' :
  thread_step (APoll out err ok tw) (PPoll c) p = Some (pc', p') ->
  state p' = state p /\ restart_count p' = restart_count p /\
  max_restart_count p' = max_restart_count p /\ pid p' = pid p /\
  (exit_status p' = exit_status p \/
   exists code, tw = TWExited code /\ exit_status p' = code /\
                pc' = PDecide (ExOk code)) /\
  pc' <> PDone.
Proof.
  simpl. destruct (flush_stdin ok (relay_output out err p)) as [p2 wrote] eqn:F.
  pose proof (flush_stdin_lifecycle ok (relay_output out err p)) as L.
  rewrite F in L. simpl in L. rewrite relay_output_lifecycle in L.
  apply lifecycle_eq in L as (Hs & He & Hr & Hm & Hp).
  destruct wrote; simpl; intros H.
  - destruct tw; inversion H; subst; simpl;
      repeat split; try congruence; eauto.
  - inversion H; subst. repeat split; try congruence; auto.
Qed.

(** What one step of a thread does to the lifecycle fields. *)
Lemma thread_step_shape a pc p pc' p' :
  thread_step a pc p = Some (pc', p') ->
  (pc = PSpawn /\
     ((pc' = PPanic /\ p' = p) \/ exists id, pc' = PPoll id /\ p' = set_spawned id p))
  \/ (exists c, pc = PPoll c /\ state p' = state p /\
        restart_count p' = restart_count p /\
        max_restart_count p' = max_restart_count p /\ pid p' = pid p /\
        pc' <> PDone)
  \/ (exists r, pc = PDecide r /\
        ((pc' = PDone /\ p' = set_state Failed p) \/
         (restart_count p < max_restart_count p /\
          pc' = PSleep (restart_delay p) /\ p' = set_restarting p)))
  \/ (exists d, pc = PSleep d /\ pc' = PSpawn /\ p' = p).
Proof.
  intros H. destruct a, pc; try discriminate.
  - left. split; [reflexivity|]. simpl in H.
    destruct (slice_from 1 (args p)); [destruct r|];
      inversion H; subst; eauto.
  - right; left. apply poll_step_shape in H as (? & ? & ? & ? & _ & ?).
    eexists; eauto 10.
  - right; right; left. exists r. simpl in H.
    destruct r.
    + destruct (N.leb_spec (max_restart_count p) (restart_count p));
        inversion H; subst; auto.
    + inversion H; subst; auto.
  - right; right; right. simpl in H. inversion H; subst; eauto.
Qed.

Lemma thread_step_done a p : thread_step a PDone p = None.
Proof. destruct a; reflexivity. Qed.

Lemma thread_step_panic a p : thread_step a PPanic p = None.
Proof. destruct a; reflexivity. Qed.

Lemma step_shape e s s' :
  step e s = Some s' ->
  (e = ELaunch /\ s' = launch s)
  \/ (exists m, e = ESend m /\ lifecycle (rec s') = lifecycle (rec s) /\
                threads s' = threads s)
  \/ (exists i a pc pc', e = EThread i a /\ threads s !! i = Some pc /\
        thread_step a pc (rec s) = Some (pc', rec s') /\
        threads s' = <[i := pc']> (threads s)).
Proof.
  destruct e as [|m|i a]; simpl; intros H.
  - left. inversion H. auto.
  - right; left. inversion H; subst. eauto.
  - right; right. destruct (threads s !! i) as [pc|] eqn:Hi; [|discriminate].
    destruct (thread_step a pc (rec s)) as [[pc' p']|] eqn:Ht; [|discriminate].
    inversion H; subst. simpl. eauto 10.
Qed.

Lemma length_step e s s' :
  step e s = Some s' ->
  length (threads s') = (length (threads s) + if is_launch e then 1 else 0)%nat.
Proof.
  intros H. apply step_shape in H
    as [[-> ->] | [[m [-> [_ ->]]] | (i & a & pc & pc' & -> & _ & _ & ->)]]; simpl.
  - rewrite launch_threads, length_app. simpl. lia.
  - lia.
  - rewrite length_insert. lia.
Qed.

Lemma length_run es s s' :
  run es s = Some s' ->
  length (threads s') = (length (threads s) + launches es)%nat.
Proof.
  revert s. induction es as [|e es IH]; simpl; intros s H.
  - inversion H. unfold launches. simpl. lia.
  - destruct (step e s) as [s1|] eqn:Hs; [|discriminate].
    apply IH in H. apply length_step in Hs. unfold launches in *. simpl.
    destruct (is_launch e); simpl in *; lia.
Qed.

Lemma run_app es1 es2 s :
  run (es1 ++ es2) s =
  match run es1 s with None => None | Some s1 => run es2 s1 end.
Proof.
  revert s. induction es1 as [|e es1 IH]; simpl; intros s; [reflexivity|].
  destruct (step e s); auto.
Qed.

(** ** C1: the restart budget *)

Definition budget_ok (p : _Process) : Prop :=
  restart_count p <= max_restart_count p /\ max_restart_count p < u64_modulus.

Lemma set_restarting_count p :
  restart_count p < max_restart_count p < u64_modulus ->
  restart_count (set_restarting p) = restart_count p + 1.
Proof.
  intros H. simpl. unfold u64_add. apply N.mod_small. lia.
Qed.

Lemma thread_step_budget a pc p pc' p' :
  thread_step a pc p = Some (pc', p') -> budget_ok p -> budget_ok p'.
Proof.
  unfold budget_ok. intros H Hb.
  apply thread_step_shape in H
    as [[_ [[_ ->] | [id [_ ->]]]]
       | [(c & _ & _ & Hr & Hm & _) | [(r & _ & [[_ ->] | (Hlt & _ & ->)]) | (d & _ & _ & ->)]]];
    simpl; auto.
  - rewrite Hr, Hm. auto.
  - unfold u64_add. rewrite N.mod_small by lia. lia.
Qed.

Lemma step_budget e s s' :
  step e s = Some s' -> budget_ok (rec s) -> budget_ok (rec s').
Proof.
  intros H. apply step_shape in H
    as [[_ ->] | [[m [_ [L _]]] | (i & a & pc & pc' & _ & _ & Ht & _)]].
  - unfold budget_ok. destruct (launch_rec s) as [-> | ->]; simpl; auto.
  - apply lifecycle_eq in L as (_ & _ & Hr & Hm & _).
    unfold budget_ok. rewrite Hr, Hm. auto.
  - eapply thread_step_budget; eauto.
Qed.

(** C1: whatever the interleaving of launches, external stdin sends and
    steps of the supervision threads, a record whose [restart_count] starts
    within its [u64] budget [max_restart_count] keeps
    [restart_count <= max_restart_count]: the only increment (lines 234-240)
    happens after checking [restart_count < max_restart_count]. *)
Theorem restart_count_le_max (es : list Event) (s s' : Sys) :
  restart_count (rec s) <= max_restart_count (rec s) ->
  max_restart_count (rec s) < u64_modulus ->
  run es s = Some s' ->
  restart_count (rec s') <= max_restart_count (rec s').
Proof.
  intros H1 H2. assert (Hb : budget_ok (rec s)) by (split; assumption).
  clear H1 H2. revert s Hb. induction es as [|e es IH]; simpl; intros s Hb H.
  - inversion H; subst. apply Hb.
  - destruct (step e s) as [s1|] eqn:Hs; [|discriminate].
    eapply IH; [|exact H]. eapply step_budget; eauto.
Qed.

(** [ls -la] run until the budget is exhausted. *)
Definition ls_la_exhaust : list Event :=
  ELaunch ::
  concat (repeat
    [EThread 0 (ASpawn (Some 42));
     EThread 0 (APoll [] [] true (TWExited (Some 0%Z)));
     EThread 0 ADecide; EThread 0 AWake] 5)
  ++ [EThread 0 (ASpawn (Some 42));
      EThread 0 (APoll [] [] true (TWExited (Some 0%Z)));
      EThread 0 ADecide].

Lemma restart_count_le_max_witness :
  run ls_la_exhaust (init_sys ls_la) = Some (final ls_la_exhaust (init_sys ls_la)) /\
  state (rec (final ls_la_exhaust (init_sys ls_la))) = Failed /\
  restart_count (rec (final ls_la_exhaust (init_sys ls_la))) = 5 /\
  restart_count (rec (final ls_la_exhaust (init_sys ls_la))) <=
    max_restart_count (rec (final ls_la_exhaust (init_sys ls_la))).
Proof.
  split; [vm_compute; reflexivity|].
  split; [vm_compute; reflexivity|].
  split; [vm_compute; reflexivity|].
  apply (restart_count_le_max ls_la_exhaust (init_sys ls_la)).
  - vm_compute. discriminate.
  - vm_compute. reflexivity.
  - vm_compute. reflexivity.
Defined.

(** ** Single steps of one supervision thread *)

Lemma step_thread s i pc a pc' p' :
  threads s !! i = Some pc ->
  thread_step a pc (rec s) = Some (pc', p') ->
  step (EThread i a) s = Some (mk_Sys p' (<[i := pc']> (threads s))).
Proof. intros Hi Ht. simpl. rewrite Hi, Ht. reflexivity. Qed.

Lemma lookup_insert_same (l : list PC) i pc pc' :
  l !! i = Some pc -> <[i := pc']> l !! i = Some pc'.
Proof. intros H. apply list_lookup_insert_eq. eapply lookup_lt_Some; eauto. Qed.

Lemma flush_stdin_true p p2 w :
  flush_stdin true p = (p2, w) ->
  w = true /\ lifecycle p2 = lifecycle p /\ restart_delay p2 = restart_delay p.
Proof.
  unfold flush_stdin.
  destruct (stdin_writer p), (stdin_queue p); intros H; inversion H; subst; auto.
Qed.

(** A poll whose stdin write (if any) succeeds goes where [try_wait] says. *)
Lemma poll_ok_step p c out err tw :
  exists p2, lifecycle p2 = lifecycle p /\ restart_delay p2 = restart_delay p /\
    thread_step (APoll out err true tw) (PPoll c) p =
    Some (match tw with
          | TWExited code => (PDecide (ExOk code), set_exit_status code p2)
          | TWErr => (PDecide ExErr, p2)
          | TWRunning => (PPoll c, p2)
          end).
Proof.
  simpl. destruct (flush_stdin true (relay_output out err p)) as [p2 w] eqn:F.
  apply flush_stdin_true in F as (-> & L & D).
  exists p2. rewrite relay_output_lifecycle in L. simpl in D.
  split; [exact L|]. split; [exact D|]. simpl. destruct tw; reflexivity.
Qed.

(** C2: an observed exit, whatever its code ([Some 0], another code, or
    [None] for a signal), is recorded in [exit_status]; then, within budget,
    [restart_count] is incremented, the state becomes [Restarting], the
    thread sleeps [restart_delay] and goes back to spawning. *)
Theorem exit_within_budget_restarts (s : Sys) (i : nat) (c : N)
    (out err : list string) (code : option Z) :
  threads s !! i = Some (PPoll c) ->
  restart_count (rec s) < max_restart_count (rec s) ->
  max_restart_count (rec s) < u64_modulus ->
  exists s1 s2 s3,
    step (EThread i (APoll out err true (TWExited code))) s = Some s1 /\
    exit_status (rec s1) = code /\
    step (EThread i ADecide) s1 = Some s2 /\
    state (rec s2) = Restarting /\ exit_status (rec s2) = code /\
    restart_count (rec s2) = restart_count (rec s) + 1 /\
    threads s2 !! i = Some (PSleep (restart_delay (rec s))) /\
    step (EThread i AWake) s2 = Some s3 /\
    threads s3 !! i = Some PSpawn.
Proof.
  intros Hi Hlt Hmax.
  destruct (poll_ok_step (rec s) c out err (TWExited code)) as (p2 & L & D & Ht).
  apply lifecycle_eq in L as (_ & _ & Hr & Hm & _).
  pose proof (step_thread _ _ _ _ _ _ Hi Ht) as S1.
  set (s1 := mk_Sys (set_exit_status code p2) _) in S1.
  assert (Hi1 : threads s1 !! i = Some (PDecide (ExOk code)))
    by (eapply lookup_insert_same; eauto).
  assert (Ht2 : thread_step ADecide (PDecide (ExOk code)) (rec s1) =
                Some (PSleep (restart_delay p2), set_restarting (rec s1))).
  { simpl. destruct (N.leb_spec (max_restart_count p2) (restart_count p2));
      [lia | reflexivity]. }
  pose proof (step_thread _ _ _ _ _ _ Hi1 Ht2) as S2.
  set (s2 := mk_Sys (set_restarting (rec s1)) _) in S2.
  assert (Hi2 : threads s2 !! i = Some (PSleep (restart_delay p2)))
    by (eapply lookup_insert_same; eauto).
  assert (Ht3 : thread_step AWake (PSleep (restart_delay p2)) (rec s2) =
                Some (PSpawn, rec s2)) by reflexivity.
  pose proof (step_thread _ _ _ _ _ _ Hi2 Ht3) as S3.
  exists s1, s2, (mk_Sys (rec s2) (<[i := PSpawn]> (threads s2))).
  split; [exact S1|]. split; [reflexivity|]. split; [exact S2|].
  split; [reflexivity|]. split; [reflexivity|].
  split; [simpl; unfold u64_add; rewrite N.mod_small; lia|].
  split; [rewrite <- D; exact Hi2|]. split; [exact S3|].
  simpl. eapply lookup_insert_same; eauto.
Qed.

(** [ls -la] running (pid 42) after launch and spawn. *)
Definition ls_la_running : Sys :=
  final [ELaunch; EThread 0 (ASpawn (Some 42))] (init_sys ls_la).

Lemma exit_within_budget_restarts_witness :
  exists s1 s2 s3,
    step (EThread 0 (APoll ["total 0"%string] [] true (TWExited (Some 0%Z))))
      ls_la_running = Some s1 /\
    exit_status (rec s1) = Some 0%Z /\
    step (EThread 0 ADecide) s1 = Some s2 /\
    state (rec s2) = Restarting /\ exit_status (rec s2) = Some 0%Z /\
    restart_count (rec s2) = restart_count (rec ls_la_running) + 1 /\
    threads s2 !! 0%nat = Some (PSleep (restart_delay (rec ls_la_running))) /\
    step (EThread 0 AWake) s2 = Some s3 /\
    threads s3 !! 0%nat = Some PSpawn.
Proof.
  apply (exit_within_budget_restarts ls_la_running 0 42).
  - vm_compute. reflexivity.
  - vm_compute. reflexivity.
  - vm_compute. reflexivity.
Defined.

(** C3: when [try_wait] itself fails, the thread sets [Failed] and returns,
    whatever the remaining budget; [restart_count] and [exit_status] are
    untouched and the thread takes no further step. *)
Theorem try_wait_error_fails (s : Sys) (i : nat) (c : N) (out err : list string) :
  threads s !! i = Some (PPoll c) ->
  exists s1 s2,
    step (EThread i (APoll out err true TWErr)) s = Some s1 /\
    step (EThread i ADecide) s1 = Some s2 /\
    state (rec s2) = Failed /\ threads s2 !! i = Some PDone /\
    restart_count (rec s2) = restart_count (rec s) /\
    exit_status (rec s2) = exit_status (rec s) /\
    forall a, step (EThread i a) s2 = None.
Proof.
  intros Hi.
  destruct (poll_ok_step (rec s) c out err TWErr) as (p2 & L & _ & Ht).
  apply lifecycle_eq in L as (_ & He & Hr & _ & _).
  pose proof (step_thread _ _ _ _ _ _ Hi Ht) as S1.
  set (s1 := mk_Sys p2 _) in S1.
  assert (Hi1 : threads s1 !! i = Some (PDecide ExErr))
    by (eapply lookup_insert_same; eauto).
  assert (Ht2 : thread_step ADecide (PDecide ExErr) (rec s1) =
                Some (PDone, set_state Failed (rec s1))) by reflexivity.
  pose proof (step_thread _ _ _ _ _ _ Hi1 Ht2) as S2.
  exists s1, (mk_Sys (set_state Failed (rec s1)) (<[i := PDone]> (threads s1))).
  split; [exact S1|]. split; [exact S2|].
  subst s1. simpl. rewrite list_insert_insert_eq.
  assert (Hi3 : <[i := PDone]> (threads s) !! i = Some PDone)
    by (eapply lookup_insert_same; eauto).
  rewrite Hi3. split; [reflexivity|]. split; [reflexivity|].
  split; [exact Hr|]. split; [exact He|].
  intros a. rewrite thread_step_done. reflexivity.
Qed.

Lemma try_wait_error_fails_witness :
  exists s1 s2,
    step (EThread 0 (APoll [] [] true TWErr)) ls_la_running = Some s1 /\
    step (EThread 0 ADecide) s1 = Some s2 /\
    state (rec s2) = Failed /\ threads s2 !! 0%nat = Some PDone /\
    restart_count (rec s2) = restart_count (rec ls_la_running) /\
    exit_status (rec s2) = exit_status (rec ls_la_running) /\
    forall a, step (EThread 0 a) s2 = None.
Proof.
  apply (try_wait_error_fails ls_la_running 0 42). vm_compute. reflexivity.
Defined.

(** C10: an exit without a code (killed by a signal) sets [exit_status] to
    [None], whatever an earlier run recorded there. *)
Theorem signal_exit_clears_exit_status (s : Sys) (i : nat) (c : N)
    (out err : list string) :
  threads s !! i = Some (PPoll c) ->
  exists s1,
    step (EThread i (APoll out err true (TWExited None))) s = Some s1 /\
    exit_status (rec s1) = None /\
    threads s1 !! i = Some (PDecide (ExOk None)).
Proof.
  intros Hi.
  destruct (poll_ok_step (rec s) c out err (TWExited None)) as (p2 & _ & _ & Ht).
  pose proof (step_thread _ _ _ _ _ _ Hi Ht) as S1.
  eexists. split; [exact S1|]. split; [reflexivity|].
  simpl. eapply lookup_insert_same; eauto.
Qed.

(** [ls -la] after one completed run (exit code 0), restarted as pid 43. *)
Definition ls_la_second_run : Sys :=
  final [ELaunch; EThread 0 (ASpawn (Some 42));
         EThread 0 (APoll [] [] true (TWExited (Some 0%Z)));
         EThread 0 ADecide; EThread 0 AWake; EThread 0 (ASpawn (Some 43))]
    (init_sys ls_la).

Lemma signal_exit_clears_exit_status_witness :
  exit_status (rec ls_la_second_run) = Some 0%Z /\
  exists s1,
    step (EThread 0 (APoll [] [] true (TWExited None))) ls_la_second_run = Some s1 /\
    exit_status (rec s1) = None /\
    threads s1 !! 0%nat = Some (PDecide (ExOk None)).
Proof.
  split; [vm_compute; reflexivity|].
  apply (signal_exit_clears_exit_status ls_la_second_run 0 43).
  vm_compute. reflexivity.
Defined.

(** ** Stdin relay *)

Lemma flush_stdin_shape ok p p2 w :
  flush_stdin ok p = (p2, w) ->
  (stdin_writer p2 = stdin_writer p /\
   (stdin_queue p2 = stdin_queue p \/ exists m, stdin_queue p = m :: stdin_queue p2))
  \/ (exists m wr, stdin_queue p = m :: stdin_queue p2 /\
        stdin_writer p = Some wr /\ stdin_writer p2 = Some (wr ++ as_bytes m)).
Proof.
  unfold flush_stdin.
  destruct (stdin_writer p) as [wr|] eqn:W; [|intros H; inversion H; subst; auto].
  destruct (stdin_queue p) as [|m rest] eqn:Q; [intros H; inversion H; subst; auto|].
  destruct ok; intros H; inversion H; subst; simpl.
  - right. exists m, wr. auto.
  - left. split; [auto|]. right. exists m. reflexivity.
Qed.

(** C8: one poll of a running child receives at most one queued stdin
    message; when it is written, the bytes appended to the child's stdin
    writer are exactly [input.as_bytes()], with nothing added.  (If
    [write_all] fails, the message is dropped and the thread panics.) *)
Theorem poll_writes_at_most_one_message (s s' : Sys) (i : nat) (c : N)
    (out err : list string) (ok : bool) (tw : TryWait) :
  threads s !! i = Some (PPoll c) ->
  step (EThread i (APoll out err ok tw)) s = Some s' ->
  (stdin_writer (rec s') = stdin_writer (rec s) /\
   (stdin_queue (rec s') = stdin_queue (rec s) \/
    exists m, stdin_queue (rec s) = m :: stdin_queue (rec s')))
  \/ (exists m w, stdin_queue (rec s) = m :: stdin_queue (rec s') /\
        stdin_writer (rec s) = Some w /\
        stdin_writer (rec s') = Some (w ++ as_bytes m)).
Proof.
  intros Hi H. simpl in H. rewrite Hi in H.
  simpl in H.
  destruct (flush_stdin ok (relay_output out err (rec s))) as [p2 wrote] eqn:F.
  apply flush_stdin_shape in F. simpl in F.
  assert (E : stdin_writer (rec s') = stdin_writer p2 /\
              stdin_queue (rec s') = stdin_queue p2).
  { destruct wrote; [destruct tw|]; inversion H; subst; simpl; auto. }
  destruct E as [-> ->]. exact F.
Qed.

(** A message ["hello"] queued on the stdin of the running [ls -la]. *)
Definition ls_la_with_input : Sys :=
  final [ESend "hello"%string] ls_la_running.

Lemma poll_writes_at_most_one_message_witness :
  exists s', step (EThread 0 (APoll [] [] true TWRunning)) ls_la_with_input = Some s' /\
  stdin_writer (rec s') = Some (as_bytes "hello"%string) /\
  ((stdin_writer (rec s') = stdin_writer (rec ls_la_with_input) /\
    (stdin_queue (rec s') = stdin_queue (rec ls_la_with_input) \/
     exists m, stdin_queue (rec ls_la_with_input) = m :: stdin_queue (rec s')))
   \/ (exists m w, stdin_queue (rec ls_la_with_input) = m :: stdin_queue (rec s') /\
         stdin_writer (rec ls_la_with_input) = Some w /\
         stdin_writer (rec s') = Some (w ++ as_bytes m))).
Proof.
  exists (final [EThread 0 (APoll [] [] true TWRunning)] ls_la_with_input).
  split; [vm_compute; reflexivity|]. split; [vm_compute; reflexivity|].
  apply (poll_writes_at_most_one_message _ _ 0 42 [] [] true TWRunning).
  - vm_compute. reflexivity.
  - vm_compute. reflexivity.
Defined.

(** ** Empty argument vector *)

(** C9: with [args = vec![]], [&p.args[1..]] panics in the supervision
    thread right after [launch], before [cmd.spawn()] and before any field
    is written: the record stays [Stopped] with no [pid]. *)
Theorem empty_args_launch_panics (nm pth : string) (rd : option N)
    (dir : option string) (r : option N) :
  run [ELaunch; EThread 0 (ASpawn r)] (init_sys (define_process nm pth [] rd dir)) =
    Some (mk_Sys (set_handle (define_process nm pth [] rd dir)) [PPanic]) /\
  lifecycle (set_handle (define_process nm pth [] rd dir)) =
    lifecycle (define_process nm pth [] rd dir) /\
  state (set_handle (define_process nm pth [] rd dir)) = Stopped /\
  pid (set_handle (define_process nm pth [] rd dir)) = None.
Proof. repeat split. Qed.

(** ** Failed as a final state *)

Lemma thread_step_sets_failed a pc p pc' p' :
  thread_step a pc p = Some (pc', p') ->
  state p' = Failed -> state p <> Failed -> pc' = PDone.
Proof.
  intros H Hf Hn.
  apply thread_step_shape in H
    as [[_ [[_ ->] | [id [_ ->]]]]
       | [(c & _ & Hs & _) | [(r & _ & [[-> _] | (_ & _ & ->)]) | (d & _ & _ & ->)]]];
    simpl in *; try congruence.
Qed.

(** The launched-at-most-once discipline: when the record is [Failed], its
    only thread has returned. *)
Definition failed_done (s : Sys) : Prop :=
  state (rec s) = Failed -> threads s = [PDone].

Lemma step_failed_done e s s' :
  step e s = Some s' -> (length (threads s') <= 1)%nat ->
  failed_done s -> failed_done s'.
Proof.
  unfold failed_done. intros H Hlen J Hf.
  pose proof (length_step _ _ _ H) as Hl.
  apply step_shape in H
    as [[-> ->] | [[m [-> [L Ht]]] | (i & a & pc & pc' & -> & Hi & Ht & Hth)]].
  - rewrite launch_threads, length_app in Hlen. simpl in Hlen.
    assert (Hs : state (rec (launch s)) = state (rec s))
      by (destruct (launch_rec s) as [-> | ->]; reflexivity).
    rewrite Hs in Hf. destruct (threads s); simpl in Hlen; [|lia].
    specialize (J Hf). discriminate.
  - apply lifecycle_eq in L as (Hs & _). rewrite Ht. apply J. congruence.
  - simpl in Hl. rewrite Hth in Hlen. rewrite length_insert in Hlen.
    destruct (threads s) as [|pc0 [|pc1 l]] eqn:E; simpl in Hlen; try lia.
    + rewrite lookup_nil in Hi. discriminate.
    + destruct i as [|i]; [|rewrite lookup_cons_ne_0 in Hi by lia; simpl in Hi;
        rewrite lookup_nil in Hi; discriminate].
      simpl in Hi. inversion Hi; subst pc0.
      destruct (decide (state (rec s) = Failed)) as [Hf0|Hf0].
      * specialize (J Hf0). inversion J; subst pc.
        rewrite thread_step_done in Ht. discriminate.
      * pose proof (thread_step_sets_failed _ _ _ _ _ Ht Hf Hf0) as ->.
        rewrite Hth. reflexivity.
Qed.

Lemma run_failed_done es s s' :
  run es s = Some s' -> (length (threads s') <= 1)%nat ->
  failed_done s -> failed_done s'.
Proof.
  revert s. induction es as [|e es IH]; simpl; intros s H Hlen J.
  - inversion H; subst. exact J.
  - destruct (step e s) as [s1|] eqn:Hs; [|discriminate].
    pose proof (length_run _ _ _ H) as L1.
    eapply IH; [exact H | exact Hlen |].
    eapply step_failed_done; [exact Hs | lia | exact J].
Qed.

Lemma run_after_done es s s' :
  threads s = [PDone] -> launches es = 0%nat -> run es s = Some s' ->
  lifecycle (rec s') = lifecycle (rec s) /\ threads s' = [PDone].
Proof.
  revert s. induction es as [|e es IH]; simpl; intros s Ht Hl H.
  - inversion H; subst. auto.
  - destruct (step e s) as [s1|] eqn:Hs; [|discriminate].
    unfold launches in Hl. simpl in Hl.
    destruct e as [|m|i a]; simpl in Hl; [discriminate| |].
    + simpl in Hs. inversion Hs. subst s1.
      destruct (IH (mk_Sys (set_stdin (stdin_queue (rec s) ++ [m])
                                      (stdin_writer (rec s)) (rec s)) (threads s))
                   Ht Hl H) as [L T].
      split; [exact L | exact T].
    + simpl in Hs. rewrite Ht in Hs.
      destruct i as [|[|i]]; simpl in Hs; try discriminate.
      rewrite thread_step_done in Hs. discriminate.
Qed.

Lemma launches_app es1 es2 :
  launches (es1 ++ es2) = (launches es1 + launches es2)%nat.
Proof. unfold launches. rewrite List.filter_app, length_app. reflexivity. Qed.

(** Two launches of [ls -la]: thread 0 fails on a [try_wait] error while
    thread 1 still supervises its own child. *)
Definition double_launch_fail : list Event :=
  [ELaunch; ELaunch; EThread 0 (ASpawn (Some 42)); EThread 1 (ASpawn (Some 43));
   EThread 0 (APoll [] [] true TWErr); EThread 0 ADecide].

Definition double_launch_then : list Event :=
  [EThread 1 (APoll [] [] true (TWExited (Some 0%Z))); EThread 1 ADecide].

(** C4 fails as stated: [launch] has no guard, so a record launched twice
    leaves [Failed] when its other thread observes an exit. *)
Lemma failed_terminal_counterexample :
  ~ (forall es1 es2 s s',
       run es1 (init_sys ls_la) = Some s -> state (rec s) = Failed ->
       run es2 s = Some s' -> lifecycle (rec s') = lifecycle (rec s)).
Proof.
  intros H.
  specialize (H double_launch_fail double_launch_then
                (final double_launch_fail (init_sys ls_la))
                (final double_launch_then (final double_launch_fail (init_sys ls_la)))).
  vm_compute in H.
  specialize (H eq_refl eq_refl eq_refl). discriminate H.
Qed.

(** C4 (amended): the step of a thread that sets [Failed] is the last step
    of that thread; and for a record launched at most once, after [Failed]
    no step changes any lifecycle field. *)
Theorem failed_terminal_single_launch :
  (forall a pc p pc' p',
     thread_step a pc p = Some (pc', p') ->
     state p' = Failed -> state p <> Failed -> pc' = PDone /\ forall a', thread_step a' pc' p' = None) /\
  (forall (p : _Process) (es1 es2 : list Event) (s s' : Sys),
     state p <> Failed -> (launches (es1 ++ es2) <= 1)%nat ->
     run es1 (init_sys p) = Some s -> state (rec s) = Failed ->
     run es2 s = Some s' -> lifecycle (rec s') = lifecycle (rec s)).
Proof.
  split.
  - intros a pc p pc' p' H Hf Hn.
    pose proof (thread_step_sets_failed _ _ _ _ _ H Hf Hn) as ->.
    split; [reflexivity|]. intros a'. apply thread_step_done.
  - intros p es1 es2 s s' Hp Hl H1 Hf H2.
    rewrite launches_app in Hl.
    pose proof (length_run _ _ _ H1) as L1. simpl in L1.
    pose proof (length_run _ _ _ H2) as L2.
    assert (J : failed_done s).
    { eapply run_failed_done; [exact H1 | lia |].
      unfold failed_done. simpl. intros; contradiction. }
    specialize (J Hf).
    rewrite J in L1. simpl in L1.
    apply (run_after_done es2 s s'); [exact J | lia | exact H2].
Qed.

Definition ls_la_try_wait_error : list Event :=
  [ELaunch; EThread 0 (ASpawn (Some 42)); EThread 0 (APoll [] [] true TWErr);
   EThread 0 ADecide].

Lemma failed_terminal_single_launch_witness :
  state (rec (final ls_la_try_wait_error (init_sys ls_la))) = Failed /\
  lifecycle (rec (final [ESend "q"%string]
                    (final ls_la_try_wait_error (init_sys ls_la)))) =
  lifecycle (rec (final ls_la_try_wait_error (init_sys ls_la))).
Proof.
  split; [vm_compute; reflexivity|].
  apply (proj2 failed_terminal_single_launch ls_la ls_la_try_wait_error
           [ESend "q"%string]).
  - vm_compute. discriminate.
  - vm_compute. lia.
  - vm_compute. reflexivity.
  - vm_compute. reflexivity.
  - vm_compute. reflexivity.
Defined.

(** ** The pid field *)

Lemma spawn_step_inv a p pc' p' :
  thread_step a PSpawn p = Some (pc', p') ->
  (pc' = PPanic /\ p' = p) \/ exists id, a = ASpawn (Some id) /\ pc' = PPoll id /\ p' = set_spawned id p.
Proof.
  destruct a; simpl; try discriminate.
  destruct (slice_from 1 (args p)); [destruct r|]; intros H; inversion H; subst; eauto.
Qed.

(** [pid] is [None] exactly while the record is [Stopped], and no thread has
    passed a successful spawn while it is [None]. *)
Definition pid_inv (s : Sys) : Prop :=
  (pid (rec s) = None <-> state (rec s) = Stopped) /\
  (pid (rec s) = None -> Forall (fun pc => started pc = false) (threads s)).

Lemma step_pid_inv e s s' : step e s = Some s' -> pid_inv s -> pid_inv s'.
Proof.
  unfold pid_inv. intros H [K1 K2].
  apply step_shape in H
    as [[-> ->] | [[m [-> [L Ht]]] | (i & a & pc & pc' & -> & Hi & Ht & Hth)]].
  - rewrite launch_threads.
    destruct (launch_rec s) as [E|E]; rewrite E; simpl;
      (split; [exact K1|]); intros Hp; apply Forall_app_2; auto.
  - apply lifecycle_eq in L as (Hs & _ & _ & _ & Hp). rewrite Hs, Hp, Ht. auto.
  - rewrite Hth.
    assert (Hstart : started pc = true -> pid (rec s) <> None).
    { intros Hst Hn. pose proof (Forall_lookup_1 _ _ _ _ (K2 Hn) Hi) as Hf.
      simpl in Hf. congruence. }
    apply thread_step_shape in Ht as Hsh.
    destruct Hsh as [[-> _] | [(c & -> & Hs & _ & _ & Hp & _) |
                    [(r & -> & [[-> Hp'] | (_ & -> & Hp')]) | (d & -> & -> & Hp')]]].
    + apply spawn_step_inv in Ht as [[-> ->] | (id & _ & -> & ->)].
      * split; [exact K1|]. intros Hn. apply Forall_insert; auto.
      * simpl. split; [split; discriminate|]. discriminate.
    + specialize (Hstart eq_refl). rewrite Hs, Hp.
      split; [exact K1|]. intros Hn. contradiction.
    + specialize (Hstart eq_refl). rewrite Hp'. simpl.
      split; [split; [contradiction | discriminate]|]. intros Hn. contradiction.
    + specialize (Hstart eq_refl). rewrite Hp'. simpl.
      split; [split; [contradiction | discriminate]|]. intros Hn. contradiction.
    + specialize (Hstart eq_refl). rewrite Hp'.
      split; [exact K1|]. intros Hn. contradiction.
Qed.

Lemma run_pid_inv es s s' : run es s = Some s' -> pid_inv s -> pid_inv s'.
Proof.
  revert s. induction es as [|e es IH]; simpl; intros s H K.
  - inversion H; subst. exact K.
  - destruct (step e s) as [s1|] eqn:Hs; [|discriminate].
    eapply IH; [exact H|]. eapply step_pid_inv; eauto.
Qed.

(** C5 fails as stated: [pid] is never cleared, so it is still set once the
    exit has been observed and the record is [Restarting]. *)
Lemma pid_only_while_running_counterexample :
  ~ (forall es s, run es (init_sys ls_la) = Some s ->
       (pid (rec s) <> None <-> state (rec s) = Running)).
Proof.
  intros H.
  pose (es := [ELaunch; EThread 0 (ASpawn (Some 42));
               EThread 0 (APoll [] [] true (TWExited (Some 0%Z)));
               EThread 0 ADecide]).
  specialize (H es (final es (init_sys ls_la))).
  vm_compute in H. destruct (H eq_refl) as [H1 _].
  assert (C : Restarting = Running) by (apply H1; discriminate).
  discriminate C.
Qed.

(** C5 (amended): starting from a record that is [Stopped] exactly when it
    has no [pid] (as [define_process] builds it), [pid] is [None] exactly
    while the record is [Stopped]; the only step that changes [pid] is a
    successful spawn, which sets it to the child's id together with
    [state = Running]; hence [pid] keeps the last child's id in
    [Restarting] and [Failed]. *)
Theorem pid_set_by_spawn_only :
  (forall (p : _Process) (es : list Event) (s : Sys),
     (pid p = None <-> state p = Stopped) ->
     run es (init_sys p) = Some s ->
     (pid (rec s) = None <-> state (rec s) = Stopped)) /\
  (forall (e : Event) (s s' : Sys),
     step e s = Some s' -> pid (rec s') <> pid (rec s) ->
     exists i id, e = EThread i (ASpawn (Some id)) /\
       pid (rec s') = Some id /\ state (rec s') = Running).
Proof.
  split.
  - intros p es s Hp H.
    assert (K : pid_inv (init_sys p)).
    { split; [exact Hp|]. intros _. constructor. }
    apply (run_pid_inv _ _ _ H K).
  - intros e s s' H Hne.
    apply step_shape in H
      as [[-> ->] | [[m [-> [L _]]] | (i & a & pc & pc' & -> & Hi & Ht & Hth)]].
    + destruct (launch_rec s) as [E|E]; rewrite E in Hne; simpl in Hne; contradiction.
    + apply lifecycle_eq in L as (_ & _ & _ & _ & Hp). contradiction.
    + apply thread_step_shape in Ht as Hsh.
      destruct Hsh as [[-> _] | [(c & -> & _ & _ & _ & Hp & _) |
                      [(r & -> & [[-> Hp'] | (_ & -> & Hp')]) | (d & -> & -> & Hp')]]].
      * apply spawn_step_inv in Ht as [[-> Hp'] | (id & -> & -> & Hp')].
        -- rewrite Hp' in Hne. contradiction.
        -- exists i, id. rewrite Hp'. auto.
      * contradiction.
      * rewrite Hp' in Hne. contradiction.
      * rewrite Hp' in Hne. contradiction.
      * rewrite Hp' in Hne. contradiction.
Qed.

(** [ls -la] back at the top of its outer loop after a first run. *)
Definition ls_la_woken : Sys :=
  final [ELaunch; EThread 0 (ASpawn (Some 42));
         EThread 0 (APoll [] [] true (TWExited (Some 0%Z)));
         EThread 0 ADecide; EThread 0 AWake] (init_sys ls_la).

Lemma pid_set_by_spawn_only_witness :
  (pid (rec (final ls_la_exhaust (init_sys ls_la))) = None <->
   state (rec (final ls_la_exhaust (init_sys ls_la))) = Stopped) /\
  exists i id, EThread 0 (ASpawn (Some 43)) = EThread i (ASpawn (Some id)) /\
    pid (rec (final [EThread 0 (ASpawn (Some 43))] ls_la_woken)) = Some id /\
    state (rec (final [EThread 0 (ASpawn (Some 43))] ls_la_woken)) = Running.
Proof.
  split.
  - apply (proj1 pid_set_by_spawn_only ls_la ls_la_exhaust).
    + split; reflexivity.
    + vm_compute. reflexivity.
  - apply (proj2 pid_set_by_spawn_only (EThread 0 (ASpawn (Some 43))) ls_la_woken).
    + vm_compute. reflexivity.
    + vm_compute. discriminate.
Defined.

(** ** A record that is never launched *)

Lemma run_unlaunched es s s' :
  threads s = [] -> launches es = 0%nat -> run es s = Some s' ->
  lifecycle (rec s') = lifecycle (rec s) /\ threads s' = [].
Proof.
  revert s. induction es as [|e es IH]; simpl; intros s Ht Hl H.
  - inversion H; subst. auto.
  - destruct (step e s) as [s1|] eqn:Hs; [|discriminate].
    unfold launches in Hl. simpl in Hl.
    destruct e as [|m|i a]; simpl in Hl; [discriminate| |].
    + simpl in Hs. inversion Hs. subst s1.
      exact (IH (mk_Sys (set_stdin (stdin_queue (rec s) ++ [m])
                                   (stdin_writer (rec s)) (rec s)) (threads s))
                Ht Hl H).
    + simpl in Hs. rewrite Ht, lookup_nil in Hs. discriminate.
Qed.

(** C6: [define_process] only builds a record: [Stopped], no restart, no
    exit status, no pid, budget 5, no supervision thread; as long as it is
    not launched, no event (external stdin sends included) changes any of
    its lifecycle fields. *)
Theorem define_process_initial (nm pth : string) (argv : list string)
    (rd : option N) (dir : option string) :
  state (define_process nm pth argv rd dir) = Stopped /\
  restart_count (define_process nm pth argv rd dir) = 0 /\
  exit_status (define_process nm pth argv rd dir) = None /\
  pid (define_process nm pth argv rd dir) = None /\
  max_restart_count (define_process nm pth argv rd dir) = 5 /\
  threads (init_sys (define_process nm pth argv rd dir)) = [] /\
  forall (es : list Event) (s : Sys),
    launches es = 0%nat ->
    run es (init_sys (define_process nm pth argv rd dir)) = Some s ->
    lifecycle (rec s) = lifecycle (define_process nm pth argv rd dir) /\
    threads s = [].
Proof.
  do 6 (split; [reflexivity|]).
  intros es s Hl H. exact (run_unlaunched es (init_sys (define_process nm pth argv rd dir)) s eq_refl Hl H).
Qed.

Lemma define_process_initial_witness :
  lifecycle (rec (final [ESend "ping"%string; ESend "pong"%string] (init_sys ls_la))) =
    lifecycle ls_la /\
  threads (final [ESend "ping"%string; ESend "pong"%string] (init_sys ls_la)) = [].
Proof.
  refine (proj2 (proj2 (proj2 (proj2 (proj2 (proj2
    (define_process_initial "ls"%string "ls"%string ["ls"%string; "-la"%string]
       (Some 1000) (Some "/"%string)))))))
    [ESend "ping"%string; ESend "pong"%string]
    (final [ESend "ping"%string; ESend "pong"%string] (init_sys ls_la)) _ _).
  - reflexivity.
  - vm_compute. reflexivity.
Defined.

(** ** The registry actor *)

Lemma spawned_app a b : spawned (a ++ b) = spawned a ++ spawned b.
Proof. unfold spawned. apply flat_map_app. Qed.

Lemma pushes_then_launches_app a b :
  pushes_then_launches (a ++ b) = pushes_then_launches a ++ pushes_then_launches b.
Proof. unfold pushes_then_launches. apply flat_map_app. Qed.

Lemma map_spawned hs : spawned (map Spawn hs) = hs.
Proof. induction hs as [|h hs IH]; simpl; [reflexivity|]. rewrite IH. reflexivity. Qed.

Lemma quit_not_spawn hs : ~ In Quit (map Spawn hs).
Proof. intros H. apply in_map_iff in H as (h & E & _). discriminate. Qed.

Lemma quit_last a b q : map Spawn a ++ [Quit] = map Spawn b ++ Quit :: q -> q = [].
Proof.
  revert b. induction a as [|x a IH]; intros [|y b]; simpl; intros H;
    inversion H; auto.
  apply (IH b). assumption.
Qed.

(** The invariant of every world reached from [Overlord::new]. *)
Record world_inv (W : World) : Prop := {
  inv_fifo : sent_cmds W = received_cmds W ++ chan W;
  inv_list : processes W = spawned (received_cmds W);
  inv_trace : trace W = pushes_then_launches (spawned (received_cmds W));
  inv_recv :
    (received_cmds W = map Spawn (spawned (received_cmds W)) /\ status W <> AExited) \/
    (received_cmds W = map Spawn (spawned (received_cmds W)) ++ [Quit] /\
     status W = AExited /\ chan W = []);
  inv_active : caller W = CActive -> sent_cmds W = map Spawn (spawned (sent_cmds W));
  inv_joining : caller W = CJoining \/ caller W = CReturned ->
                sent_cmds W = map Spawn (spawned (sent_cmds W)) ++ [Quit];
  inv_panicked : caller W = CPanicked -> status W = ADead;
  inv_returned : caller W = CReturned -> status W = AExited;
  inv_dead : status W = ADead \/ (exists h, status W = ALaunching h) ->
             spawned (received_cmds W) <> []
}.

Lemma world_inv_new st : world_inv (overlord_new st).
Proof.
  constructor; simpl.
  - reflexivity.
  - reflexivity.
  - reflexivity.
  - left. split; [reflexivity | discriminate].
  - intros _. reflexivity.
  - intros [E | E]; discriminate.
  - intros E; discriminate.
  - intros E; discriminate.
  - intros [E | [h E]]; discriminate.
Qed.

Lemma active_not_exited W : world_inv W -> caller W = CActive -> status W <> AExited.
Proof.
  intros I Hc He. destruct (inv_recv W I) as [[_ Hn] | [R _]]; [contradiction|].
  pose proof (inv_active W I Hc) as A. rewrite (inv_fifo W I), R in A.
  apply (quit_not_spawn (spawned ((map Spawn (spawned (received_cmds W)) ++ [Quit]) ++ chan W))).
  rewrite <- A. apply in_or_app. left. apply in_or_app. right. left. reflexivity.
Qed.

Lemma world_step_inv w W W' : world_step w W = Some W' -> world_inv W -> world_inv W'.
Proof.
  intros H I. pose proof (active_not_exited W I) as NA.
  destruct I as [I1 I2 I3 I4 I5 I6 I7 I8 I9].
  destruct W as [ch ps st tr stt cl sn rc]; simpl in *.
  destruct w as [b| |h e|h| |]; simpl in H.
  - destruct stt; try discriminate. destruct ch as [|[h|] q]; try discriminate.
    + destruct (st !! h) as [s|]; [|discriminate]. try discriminate; injection H as <-.
      destruct I4 as [[R4 _] | [_ [E _]]]; [|discriminate].
      constructor; simpl.
      * rewrite I1, <- app_assoc. reflexivity.
      * rewrite I2, spawned_app. reflexivity.
      * rewrite I3, spawned_app, pushes_then_launches_app. reflexivity.
      * left. split.
        -- rewrite spawned_app, map_app, <- R4. reflexivity.
        -- destruct b; discriminate.
      * exact I5.
      * exact I6.
      * intros Hc. specialize (I7 Hc). discriminate.
      * intros Hc. specialize (I8 Hc). discriminate.
      * intros _. rewrite spawned_app. simpl. destruct (spawned rc); discriminate.
    + try discriminate; injection H as <-.
      destruct I4 as [[R4 _] | [_ [E _]]]; [|discriminate].
      assert (Hq : q = []).
      { destruct cl.
        - exfalso. specialize (I5 eq_refl). rewrite I1 in I5.
          apply (quit_not_spawn (spawned (rc ++ Quit :: q))). rewrite <- I5.
          apply in_or_app. right. left. reflexivity.
        - apply (quit_last (spawned sn) (spawned rc)).
          rewrite <- (I6 (or_introl eq_refl)), <- R4. exact I1.
        - apply (quit_last (spawned sn) (spawned rc)).
          rewrite <- (I6 (or_intror eq_refl)), <- R4. exact I1.
        - specialize (I7 eq_refl). discriminate. }
      subst q. constructor; simpl.
      * rewrite I1, <- app_assoc. reflexivity.
      * rewrite I2, spawned_app. simpl. rewrite app_nil_r. reflexivity.
      * rewrite I3, spawned_app. simpl. rewrite app_nil_r. reflexivity.
      * right. split; [|auto].
        rewrite spawned_app. simpl. rewrite app_nil_r, <- R4. reflexivity.
      * exact I5.
      * exact I6.
      * intros Hc. specialize (I7 Hc). discriminate.
      * intros _. reflexivity.
      * intros [E | [h E]]; discriminate.
  - destruct stt as [|h| |]; try discriminate.
    destruct (st !! h) as [s|]; [|discriminate].
    assert (D : spawned rc <> []) by (apply I9; right; eauto).
    destruct (store_handle s) as [s'|]; try discriminate; injection H as <-;
      constructor; simpl; auto.
    all: try (destruct I4 as [[R4 _] | [_ [E _]]];
              [left; split; [exact R4 | discriminate] | discriminate]).
    all: try (intros Hc; specialize (I7 Hc); discriminate).
    all: try (intros Hc; specialize (I8 Hc); discriminate).
  - destruct (st !! h) as [s|]; [|discriminate].
    destruct (step e s) as [s'|]; [|discriminate].
    try discriminate; injection H as <-. constructor; simpl; auto.
  - destruct cl; try discriminate. specialize (NA eq_refl).
    destruct stt; simpl in H; try discriminate; injection H as <-; constructor; simpl; auto;
      try discriminate; try congruence.
    all: try (rewrite I1, <- app_assoc; reflexivity).
    all: try (intros _; rewrite spawned_app, map_app, <- (I5 eq_refl); reflexivity).
    all: try (intros [E | E]; discriminate).
    all: destruct I4 as [[R4 Hn] | [_ [E _]]]; [left; split; auto | discriminate].
  - destruct cl; try discriminate. specialize (NA eq_refl).
    destruct stt; simpl in H; try discriminate; injection H as <-; constructor; simpl; auto;
      try discriminate; try congruence.
    all: try (rewrite I1, <- app_assoc; reflexivity).
    all: try (intros _; rewrite spawned_app, map_app, <- (I5 eq_refl); simpl;
              rewrite app_nil_r; reflexivity).
    all: try (intros [E | E]; discriminate).
    all: destruct I4 as [[R4 Hn] | [_ [E _]]]; [left; split; auto | discriminate].
  - destruct cl; try discriminate. destruct stt; try discriminate; injection H as <-;
      constructor; simpl; auto; try discriminate.
Qed.

Lemma run_world_inv ws W W' : run_world ws W = Some W' -> world_inv W -> world_inv W'.
Proof.
  revert W. induction ws as [|w ws IH]; simpl; intros W H I.
  - inversion H; subst. exact I.
  - destruct (world_step w W) as [W1|] eqn:Hw; [|discriminate].
    eapply IH; [exact H|]. eapply world_step_inv; eauto.
Qed.

Lemma run_world_app ws1 ws2 W :
  run_world (ws1 ++ ws2) W =
  match run_world ws1 W with None => None | Some W1 => run_world ws2 W1 end.
Proof.
  revert W. induction ws1 as [|w ws1 IH]; simpl; intros W; [reflexivity|].
  destruct (world_step w W); auto.
Qed.

(** Once the actor has returned or panicked, nothing changes its status,
    the commands it received, the list or its trace. *)
Lemma world_step_finished w W W' :
  world_step w W = Some W' -> status W = AExited \/ status W = ADead ->
  status W' = status W /\ received_cmds W' = received_cmds W /\
  processes W' = processes W /\ trace W' = trace W.
Proof.
  intros H Hs. destruct W as [ch ps st tr stt cl sn rc]; simpl in *.
  destruct w as [b| |h e|h| |]; simpl in H;
    destruct Hs as [-> | ->]; simpl in H; try discriminate.
  all: try (destruct (st !! h) as [s|]; [|discriminate];
            destruct (step e s); [|discriminate]).
  all: try (destruct cl; try discriminate).
  all: inversion H; subst; simpl; auto.
Qed.

Lemma run_world_finished ws W W' :
  run_world ws W = Some W' -> status W = AExited \/ status W = ADead ->
  status W' = status W /\ received_cmds W' = received_cmds W /\
  processes W' = processes W /\ trace W' = trace W.
Proof.
  revert W. induction ws as [|w ws IH]; simpl; intros W H Hs.
  - inversion H; subst. auto.
  - destruct (world_step w W) as [W1|] eqn:Hw; [|discriminate].
    destruct (world_step_finished _ _ _ Hw Hs) as (E1 & E2 & E3 & E4).
    rewrite <- E1 in Hs. destruct (IH W1 H Hs) as (F1 & F2 & F3 & F4).
    rewrite F1, F2, F3, F4. auto.
Qed.

(** Once the caller is inside [quit] (or past it), it sends nothing more. *)
Lemma run_world_not_active ws W W' :
  run_world ws W = Some W' -> caller W <> CActive ->
  sent_cmds W' = sent_cmds W /\ caller W' <> CActive.
Proof.
  revert W. induction ws as [|w ws IH]; simpl; intros W H Hc.
  - inversion H; subst. auto.
  - destruct (world_step w W) as [W1|] eqn:Hw; [|discriminate].
    assert (E : sent_cmds W1 = sent_cmds W /\ caller W1 <> CActive).
    { destruct W as [ch ps st tr stt cl sn rc]; simpl in *.
      destruct w as [b| |h e|h| |]; simpl in Hw.
      - destruct stt; try discriminate. destruct ch as [|[h|] q]; try discriminate.
        + destruct (st !! h); [|discriminate]. inversion Hw; subst; simpl; auto.
        + inversion Hw; subst; simpl; auto.
      - destruct stt; try discriminate. destruct (st !! h); [|discriminate].
        destruct (store_handle s); inversion Hw; subst; simpl; auto.
      - destruct (st !! h) as [s|]; [|discriminate].
        destruct (step e s); [|discriminate]. inversion Hw; subst; simpl; auto.
      - destruct cl; try discriminate. contradiction.
      - destruct cl; try discriminate. contradiction.
      - destruct cl, stt; try discriminate; inversion Hw; subst; simpl; split;
          auto; discriminate. }
    destruct E as [E1 E2]. destruct (IH W1 H E2) as [F1 F2].
    rewrite F1, E1. auto.
Qed.

(** C7: in every interleaving of the actor, the caller and the supervision
    threads from [Overlord::new], the actor receives the commands in the
    order they were sent; the list is the handles of the [Spawn] commands
    received, in that order (never removed or reordered), and for each of
    them the push comes right before the launch; the only command after
    the [Spawn]s that it can receive is a [Quit], on which it returns
    leaving the list as it is; from then on (as after a panic in a
    [launch]) the list, the trace and the received commands never change.
    [quit()] on a fresh registry returns, never panics, and the list stays
    empty. *)
Theorem actor_fifo (st : gmap nat Sys) :
  (forall ws W, run_world ws (overlord_new st) = Some W ->
     sent_cmds W = received_cmds W ++ chan W /\
     processes W = spawned (received_cmds W) /\
     trace W = pushes_then_launches (spawned (received_cmds W)) /\
     ((received_cmds W = map Spawn (spawned (received_cmds W)) /\ status W <> AExited) \/
      (received_cmds W = map Spawn (spawned (received_cmds W)) ++ [Quit] /\
       status W = AExited)) /\
     (status W = AExited \/ status W = ADead ->
      forall ws' W', run_world ws' W = Some W' ->
        status W' = status W /\ received_cmds W' = received_cmds W /\
        processes W' = processes W /\ trace W' = trace W)) /\
  (forall ws W, run_world (WQuit :: ws) (overlord_new st) = Some W ->
     processes W = [] /\ caller W <> CPanicked) /\
  (exists W, run_world [WQuit; WRecv true; WJoin] (overlord_new st) = Some W /\
     caller W = CReturned /\ processes W = []).
Proof.
  split; [|split].
  - intros ws W H. pose proof (run_world_inv _ _ _ H (world_inv_new st)) as I.
    split; [exact (inv_fifo W I)|]. split; [exact (inv_list W I)|].
    split; [exact (inv_trace W I)|]. split.
    + destruct (inv_recv W I) as [R | (R & E & _)]; [left; exact R | right; auto].
    + intros Hs ws' W' H'. exact (run_world_finished ws' W W' H' Hs).
  - intros ws W H.
    pose proof (run_world_inv _ _ _ H (world_inv_new st)) as I. simpl in H.
    destruct (run_world_not_active ws _ W H ltac:(simpl; discriminate)) as [Hsent _].
    simpl in Hsent.
    assert (Hsp : spawned (received_cmds W) = []).
    { pose proof (f_equal spawned (inv_fifo W I)) as E.
      rewrite Hsent, spawned_app in E. simpl in E.
      symmetry in E. apply app_eq_nil in E. apply E. }
    split; [rewrite (inv_list W I); exact Hsp|].
    intros Hc. apply (inv_dead W I); [left; exact (inv_panicked W I Hc) | exact Hsp].
  - eexists. split; [reflexivity|]. split; reflexivity.
Qed.

(** The registry of the test of lib.rs with a missing binary: the same
    record spawned three times, then [quit()].  The first launch succeeds,
    its thread panics on the spawn; the second launch finds the lock
    poisoned and the actor panics: the third [Spawn] and the [Quit] are
    never received, and [quit()] panics. *)
Definition missing_binary_session : list WEvent :=
  [WSpawn 0; WSpawn 0; WSpawn 0; WQuit;
   WRecv true; WStore; WSup 0 (EThread 0 (ASpawn None));
   WRecv true; WStore; WJoin].

Lemma actor_fifo_witness :
  status (final_world missing_binary_session (overlord_new (<[0%nat := init_sys ls_la]> ∅)))
    = ADead /\
  caller (final_world missing_binary_session (overlord_new (<[0%nat := init_sys ls_la]> ∅)))
    = CPanicked /\
  processes (final_world missing_binary_session
               (overlord_new (<[0%nat := init_sys ls_la]> ∅))) = [0; 0]%nat /\
  processes (final_world missing_binary_session
               (overlord_new (<[0%nat := init_sys ls_la]> ∅))) =
    spawned (received_cmds (final_world missing_binary_session
                         (overlord_new (<[0%nat := init_sys ls_la]> ∅)))).
Proof.
  split; [vm_compute; reflexivity|]. split; [vm_compute; reflexivity|].
  split; [vm_compute; reflexivity|].
  apply (proj1 (actor_fifo (<[0%nat := init_sys ls_la]> ∅)) missing_binary_session).
  vm_compute. reflexivity.
Defined.

(** ** Further properties of the code *)

(** [from_argv!(argv)], [from_argv!(argv, cwd)], [from_argv!(argv, cwd, delay)]
    (process.rs, lines 55-72): [argv[0]] is both name and path, the whole
    vector is [args]; [None] when [argv[0]] does not exist. *)
Definition from_argv1 (argv : list string) : option _Process :=
  match argv with
  | [] => None
  | a :: _ => Some (define_process a a argv None None)
  end.

Definition from_argv2 (argv : list string) (dir : string) : option _Process :=
  match argv with
  | [] => None
  | a :: _ => Some (define_process a a argv None (Some dir))
  end.

Definition from_argv3 (argv : list string) (dir : string) (rd : N) : option _Process :=
  match argv with
  | [] => None
  | a :: _ => Some (define_process a a argv (Some rd) (Some dir))
  end.

(** The [process::Command] built at lines 121-127: program [p.path],
    arguments [p.args[1..]], working directory [p.cwd] when set. *)
Record Command_ := mk_Command {
  program : string;
  cmd_args : list string;
  current_dir : option string
}.

Definition build_command (p : _Process) : option Command_ :=
  match slice_from 1 (args p) with
  | None => None
  | Some a => Some (mk_Command (path p) a (cwd p))
  end.

(** The configuration fields of a record. *)
Definition config (p : _Process)
    : string * string * list string * N * option string * N :=
  (name p, path p, args p, restart_delay p, cwd p, max_restart_count p).

(** What a record is run as: the command built at lines 121-127, its
    restart delay, its initial state, and for every pid the operating
    system gives to the first [cmd.spawn()], the record [Running] with that
    pid after [launch] and the spawn step. *)
Definition runs_as (p : _Process) (c : Command_) (rd : N) : Prop :=
  build_command p = Some c /\ restart_delay p = rd /\ state p = Stopped /\
  forall id, exists s,
    run [ELaunch; EThread 0 (ASpawn (Some id))] (init_sys p) = Some s /\
    state (rec s) = Running /\ pid (rec s) = Some id /\ threads s = [PPoll id].

Lemma from_argv_runs_as (a : string) (rest : list string) (dir : option string)
    (rd : option N) :
  runs_as (define_process a a (a :: rest) rd dir) (mk_Command a rest dir) (default 0 rd).
Proof.
  split; [reflexivity|]. split; [reflexivity|]. split; [reflexivity|].
  intros id. eexists. split; [reflexivity|]. auto.
Qed.

(** X1: a record built by [from_argv!] from [a :: rest] is run as the
    program [a] with the arguments [rest], in the directory given to the
    macro (none for the one-argument form), with the restart delay given
    to the macro or 0; its spawn step never reaches the [args[1..]] panic:
    whatever pid the operating system gives, [launch] and the spawn leave
    it [Running] with that pid.  On an empty vector the macro panics at
    [argv[0]]. *)
Theorem from_argv_command (a : string) (rest : list string) (dir : string) (rd : N) :
  (exists p, from_argv1 (a :: rest) = Some p /\ runs_as p (mk_Command a rest None) 0) /\
  (exists p, from_argv2 (a :: rest) dir = Some p /\
             runs_as p (mk_Command a rest (Some dir)) 0) /\
  (exists p, from_argv3 (a :: rest) dir rd = Some p /\
             runs_as p (mk_Command a rest (Some dir)) rd) /\
  from_argv1 [] = None /\ from_argv2 [] dir = None /\ from_argv3 [] dir rd = None.
Proof.
  split; [|split; [|split]].
  - eexists. split; [reflexivity|]. apply (from_argv_runs_as a rest None None).
  - eexists. split; [reflexivity|]. apply (from_argv_runs_as a rest (Some dir) None).
  - eexists. split; [reflexivity|]. apply (from_argv_runs_as a rest (Some dir) (Some rd)).
  - auto.
Qed.

Lemma from_argv_command_witness :
  exists p, from_argv3 ["ls"%string; "-la"%string] "/"%string 1000 = Some p /\
    runs_as p (mk_Command "ls"%string ["-la"%string] (Some "/"%string)) 1000 /\
    p = ls_la.
Proof.
  destruct (proj1 (proj2 (proj2
    (from_argv_command "ls"%string ["-la"%string] "/"%string 1000)))) as (p & E & R).
  exists p. split; [exact E|]. split; [exact R|].
  injection E as <-. reflexivity.
Defined.

Lemma thread_step_config a pc p pc' p' :
  thread_step a pc p = Some (pc', p') -> config p' = config p.
Proof.
  intros H.
  destruct a, pc; try discriminate; simpl in H.
  - destruct (slice_from 1 (args p)); [destruct r|]; inversion H; reflexivity.
  - destruct (flush_stdin ok (relay_output out err p)) as [p2 w] eqn:F.
    assert (C : config p2 = config p).
    { unfold flush_stdin in F. simpl in F.
      destruct (stdin_writer p), (stdin_queue p), ok;
        inversion F; reflexivity. }
    destruct w; [destruct tw|]; inversion H; subst; exact C.
  - destruct r; [destruct (max_restart_count p <=? restart_count p)|];
      inversion H; reflexivity.
  - inversion H; reflexivity.
Qed.

Lemma step_config e s s' : step e s = Some s' -> config (rec s') = config (rec s).
Proof.
  destruct e as [|m|i a]; simpl; intros H.
  - inversion H; subst. destruct (launch_rec s) as [-> | ->]; reflexivity.
  - inversion H; reflexivity.
  - destruct (threads s !! i) as [pc|]; [|discriminate].
    destruct (thread_step a pc (rec s)) as [[pc' p']|] eqn:Ht; [|discriminate].
    inversion H; subst. simpl. eapply thread_step_config; eauto.
Qed.

(** X2: no event changes the configuration of a record: [name], [path],
    [args], [restart_delay], [cwd] and [max_restart_count] stay as they
    were, so every restart uses the same command and delay. *)
Theorem run_preserves_config (es : list Event) (s s' : Sys) :
  run es s = Some s' -> config (rec s') = config (rec s).
Proof.
  revert s. induction es as [|e es IH]; simpl; intros s H.
  - inversion H; reflexivity.
  - destruct (step e s) as [s1|] eqn:Hs; [|discriminate].
    rewrite (IH _ H). eapply step_config; eauto.
Qed.

Lemma run_preserves_config_witness :
  config (rec (final ls_la_exhaust (init_sys ls_la))) = config ls_la.
Proof.
  apply (run_preserves_config ls_la_exhaust (init_sys ls_la)).
  vm_compute. reflexivity.
Defined.

Lemma thread_step_pid_child a pc p pc' p' :
  thread_step a pc p = Some (pc', p') -> pid p = child p -> pid p' = child p'.
Proof.
  intros H E.
  destruct a, pc; try discriminate; simpl in H.
  - destruct (slice_from 1 (args p)); [destruct r|]; inversion H; subst; auto.
  - destruct (flush_stdin ok (relay_output out err p)) as [p2 w] eqn:F.
    assert (C : pid p2 = child p2).
    { unfold flush_stdin in F. simpl in F.
      destruct (stdin_writer p), (stdin_queue p), ok;
        inversion F; subst; exact E. }
    destruct w; [destruct tw|]; inversion H; subst; exact C.
  - destruct r; [destruct (max_restart_count p <=? restart_count p)|];
      inversion H; subst; exact E.
  - inversion H; subst; exact E.
Qed.

(** X3: [p.pid] and [p.child] always designate the same process: both are
    set together from the spawned child (lines 143-144) and nothing else
    writes them. *)
Theorem run_pid_eq_child (es : list Event) (s s' : Sys) :
  pid (rec s) = child (rec s) -> run es s = Some s' -> pid (rec s') = child (rec s').
Proof.
  revert s. induction es as [|e es IH]; simpl; intros s E H.
  - inversion H; subst; exact E.
  - destruct (step e s) as [s1|] eqn:Hs; [|discriminate].
    apply (IH s1); [|exact H].
    destruct e as [|m|i a]; simpl in Hs.
    + inversion Hs; subst. destruct (launch_rec s) as [-> | ->]; exact E.
    + inversion Hs; subst; exact E.
    + destruct (threads s !! i) as [pc|]; [|discriminate].
      destruct (thread_step a pc (rec s)) as [[pc' p']|] eqn:Ht; [|discriminate].
      inversion Hs; subst. simpl. eapply thread_step_pid_child; eauto.
Qed.

Lemma run_pid_eq_child_witness :
  pid (rec ls_la_second_run) = child (rec ls_la_second_run) /\
  pid (rec ls_la_second_run) = Some 43.
Proof.
  split; [|vm_compute; reflexivity].
  apply (run_pid_eq_child
           [ELaunch; EThread 0 (ASpawn (Some 42));
            EThread 0 (APoll [] [] true (TWExited (Some 0%Z)));
            EThread 0 ADecide; EThread 0 AWake; EThread 0 (ASpawn (Some 43))]
           (init_sys ls_la)).
  - reflexivity.
  - vm_compute. reflexivity.
Defined.

(** Whether a supervision thread has returned or panicked. *)
Definition finished (pc : PC) : bool :=
  match pc with PDone | PPanic => true | _ => false end.

Lemma thread_step_finished a pc p : finished pc = true -> thread_step a pc p = None.
Proof. destruct pc; try discriminate; intros _; destruct a; reflexivity. Qed.

(** X4: once every supervision thread of a record has returned or
    panicked (for instance its only thread, after [cmd.spawn()] failed with
    "Failed to run binary" on a restart), no event but a new [launch]
    changes any of its lifecycle fields or its threads: such a record stays
    [Restarting] (or whatever it was) with no thread left to supervise it. *)
Theorem finished_record_frozen (es : list Event) (s s' : Sys) :
  forallb finished (threads s) = true -> launches es = 0%nat ->
  run es s = Some s' ->
  lifecycle (rec s') = lifecycle (rec s) /\ threads s' = threads s.
Proof.
  revert s. induction es as [|e es IH]; simpl; intros s Hf Hl H.
  - inversion H; subst. auto.
  - destruct (step e s) as [s1|] eqn:Hs; [|discriminate].
    unfold launches in Hl. simpl in Hl.
    destruct e as [|m|i a]; simpl in Hl; [discriminate| |].
    + simpl in Hs. injection Hs as <-.
      exact (IH (mk_Sys (set_stdin (stdin_queue (rec s) ++ [m])
                                   (stdin_writer (rec s)) (rec s)) (threads s))
                Hf Hl H).
    + simpl in Hs. destruct (threads s !! i) as [pc|] eqn:Hi; [|discriminate].
      apply forallb_forall with (x := pc) in Hf as Hpc;
        [| apply list_elem_of_In; eapply list_elem_of_lookup_2; eauto].
      rewrite thread_step_finished in Hs by exact Hpc. discriminate.
Qed.

(** [ls -la] whose re-spawn failed after a first run. *)
Definition ls_la_respawn_failed : Sys :=
  final [EThread 0 (ASpawn None)] ls_la_woken.

Lemma finished_record_frozen_witness :
  state (rec ls_la_respawn_failed) = Restarting /\
  threads ls_la_respawn_failed = [PPanic] /\
  lifecycle (rec (final [ESend "x"%string; ESend "y"%string] ls_la_respawn_failed)) =
    lifecycle (rec ls_la_respawn_failed) /\
  threads (final [ESend "x"%string; ESend "y"%string] ls_la_respawn_failed) =
    threads ls_la_respawn_failed.
Proof.
  split; [vm_compute; reflexivity|]. split; [vm_compute; reflexivity|].
  apply (finished_record_frozen [ESend "x"%string; ESend "y"%string] ls_la_respawn_failed).
  - vm_compute. reflexivity.
  - reflexivity.
  - vm_compute. reflexivity.
Defined.

(** Lines offered on the child's stdout / stderr by a poll action or event. *)
Definition act_out (a : Action) : list string :=
  match a with APoll out _ _ _ => out | _ => [] end.
Definition act_err (a : Action) : list string :=
  match a with APoll _ err _ _ => err | _ => [] end.
Definition poll_out (e : Event) : list string :=
  match e with EThread _ a => act_out a | _ => [] end.
Definition poll_err (e : Event) : list string :=
  match e with EThread _ a => act_err a | _ => [] end.

(** Either no thread has spawned a child yet, or both [BufReader]s are set. *)
Definition readers_inv (s : Sys) : Prop :=
  Forall (fun pc => started pc = false) (threads s) \/
  (stdout_reader (rec s) = true /\ stderr_reader (rec s) = true).

Lemma flush_stdin_io ok p :
  stdout_chan (fst (flush_stdin ok p)) = stdout_chan p /\
  stderr_chan (fst (flush_stdin ok p)) = stderr_chan p /\
  stdout_reader (fst (flush_stdin ok p)) = stdout_reader p /\
  stderr_reader (fst (flush_stdin ok p)) = stderr_reader p.
Proof.
  unfold flush_stdin. destruct (stdin_writer p), (stdin_queue p), ok; simpl; auto.
Qed.

Lemma thread_step_chans a pc p pc' p' :
  thread_step a pc p = Some (pc', p') ->
  stdout_chan p' = stdout_chan p ++ (if stdout_reader p then act_out a else []) /\
  stderr_chan p' = stderr_chan p ++ (if stderr_reader p then act_err a else []) /\
  ((stdout_reader p' = true /\ stderr_reader p' = true) \/
   (stdout_reader p' = stdout_reader p /\ stderr_reader p' = stderr_reader p /\
    (started pc = true \/ started pc' = false))).
Proof.
  intros H.
  assert (N1 : forall b : bool, (if b then @nil string else []) = []) by (intros []; reflexivity).
  destruct a, pc; try discriminate; simpl in H; simpl act_out; simpl act_err;
    rewrite ?N1, ?app_nil_r.
  - destruct (slice_from 1 (args p)); [destruct r|]; inversion H; subst; simpl; intuition auto.
  - pose proof (flush_stdin_io ok (relay_output out err p)) as (O & E & RO & RE).
    destruct (flush_stdin ok (relay_output out err p)) as [p2 w] eqn:F. simpl in *.
    destruct w; [destruct tw|]; inversion H; subst; simpl;
      rewrite ?O, ?E, ?RO, ?RE; simpl;
      destruct (stdout_reader p), (stderr_reader p); rewrite ?app_nil_r;
      intuition auto.
  - destruct r; [destruct (max_restart_count p <=? restart_count p)|];
      inversion H; subst; simpl; intuition auto.
  - inversion H; subst; intuition auto.
Qed.

Lemma step_chans e s s' :
  step e s = Some s' -> readers_inv s ->
  stdout_chan (rec s') = stdout_chan (rec s) ++ poll_out e /\
  stderr_chan (rec s') = stderr_chan (rec s) ++ poll_err e /\
  readers_inv s'.
Proof.
  intros H R. destruct e as [|m|i a]; simpl in H.
  - inversion H; subst. unfold readers_inv in *. rewrite launch_threads.
    destruct (launch_rec s) as [-> | ->]; simpl; rewrite !app_nil_r;
      (split; [|split]); auto;
      (destruct R as [R|R]; [left; apply Forall_app_2; auto | right; exact R]).
  - inversion H; subst. simpl. rewrite !app_nil_r. split; [|split]; auto.
  - destruct (threads s !! i) as [pc|] eqn:Hi; [|discriminate].
    destruct (thread_step a pc (rec s)) as [[pc' p']|] eqn:Ht; [|discriminate].
    inversion H; subst. simpl.
    destruct (thread_step_chans _ _ _ _ _ Ht) as (O & E & Rd).
    assert (Hpoll : act_out a <> [] \/ act_err a <> [] ->
                    stdout_reader (rec s) = true /\ stderr_reader (rec s) = true).
    { intros Hne. destruct R as [R|R]; [|exact R].
      pose proof (Forall_lookup_1 _ _ _ _ R Hi) as Hs.
      destruct a; simpl in Hne; try (destruct Hne; congruence).
      destruct pc; discriminate. }
    split; [|split].
    + rewrite O. destruct (stdout_reader (rec s)) eqn:Rs; [reflexivity|].
      destruct (act_out a) eqn:A; [reflexivity|].
      destruct Hpoll as [Hp _]; [left; discriminate | congruence].
    + rewrite E. destruct (stderr_reader (rec s)) eqn:Rs; [reflexivity|].
      destruct (act_err a) eqn:A; [reflexivity|].
      destruct Hpoll as [_ Hp]; [right; discriminate | congruence].
    + unfold readers_inv. simpl.
      destruct Rd as [Rd | (R1 & R2 & Hst)]; [right; exact Rd|].
      destruct R as [R|R].
      * destruct Hst as [Hst|Hst].
        -- pose proof (Forall_lookup_1 _ _ _ _ R Hi). congruence.
        -- left. apply Forall_insert; auto.
      * right. rewrite R1, R2. exact R.
Qed.

(** X5: every line the supervision threads read from a child's stdout
    (stderr) is sent on the record's stdout (stderr) channel, in the order
    read, none dropped or repeated: the channel holds the concatenation of
    the lines of all poll steps. *)
Theorem output_relayed_in_order (nm pth : string) (argv : list string)
    (rd : option N) (dir : option string) (es : list Event) (s : Sys) :
  run es (init_sys (define_process nm pth argv rd dir)) = Some s ->
  stdout_chan (rec s) = concat (map poll_out es) /\
  stderr_chan (rec s) = concat (map poll_err es).
Proof.
  assert (G : forall es s0 s, run es s0 = Some s -> readers_inv s0 ->
            stdout_chan (rec s) = stdout_chan (rec s0) ++ concat (map poll_out es) /\
            stderr_chan (rec s) = stderr_chan (rec s0) ++ concat (map poll_err es)).
  { clear. induction es as [|e es IH]; simpl; intros s0 s H R.
    - inversion H; subst. rewrite !app_nil_r. auto.
    - destruct (step e s0) as [s1|] eqn:Hs; [|discriminate].
      destruct (step_chans _ _ _ Hs R) as (O & E & R1).
      destruct (IH _ _ H R1) as [O' E'].
      rewrite O', E', O, E, <- !app_assoc. auto. }
  intros H. apply (G _ _ _ H). left. constructor.
Qed.

Definition echo_test : _Process :=
  define_process "echo"%string "echo"%string ["echo"%string; "test"%string] None
    (Some "/"%string).

Definition echo_test_run : list Event :=
  [ELaunch; EThread 0 (ASpawn (Some 7));
   EThread 0 (APoll ["test"%string] [] true (TWExited (Some 0%Z)))].

Lemma output_relayed_in_order_witness :
  stdout_chan (rec (final echo_test_run (init_sys echo_test))) = ["test"%string] /\
  stderr_chan (rec (final echo_test_run (init_sys echo_test))) = [].
Proof.
  apply (output_relayed_in_order "echo"%string "echo"%string
           ["echo"%string; "test"%string] None (Some "/"%string) echo_test_run).
  vm_compute. reflexivity.
Defined.

(** Events that neither spawn a new child (which replaces the stdin
    writer) nor make a stdin write fail. *)
Definition quiet_event (e : Event) : bool :=
  match e with
  | EThread _ (ASpawn _) => false
  | EThread _ (APoll _ _ ok _) => ok
  | _ => true
  end.

(** Messages an event sends on [p.stdin]. *)
Definition sent (e : Event) : list string :=
  match e with ESend m => [m] | _ => [] end.

Lemma thread_step_stdin a pc p pc' p' w :
  thread_step a pc p = Some (pc', p') ->
  quiet_event (EThread 0 a) = true ->
  stdin_writer p = Some w ->
  exists c, stdin_queue p = c ++ stdin_queue p' /\
            stdin_writer p' = Some (w ++ concat (map as_bytes c)).
Proof.
  intros H Hq Hw.
  destruct a, pc; try discriminate; simpl in H, Hq.
  - subst ok. unfold flush_stdin in H. simpl in H. rewrite Hw in H.
    destruct (stdin_queue p) as [|m rest] eqn:Q.
    + exists []. simpl. rewrite app_nil_r.
      destruct tw; inversion H; subst; simpl; rewrite Q; auto.
    + exists [m]. simpl. rewrite app_nil_r.
      destruct tw; inversion H; subst; simpl; auto.
  - exists []. simpl. rewrite app_nil_r.
    destruct r; [destruct (max_restart_count p <=? restart_count p)|];
      inversion H; subst; simpl; auto.
  - exists []. simpl. rewrite app_nil_r. inversion H; subst; auto.
Qed.

Lemma step_stdin e s s' w :
  step e s = Some s' -> quiet_event e = true -> stdin_writer (rec s) = Some w ->
  exists c, stdin_queue (rec s) ++ sent e = c ++ stdin_queue (rec s') /\
            stdin_writer (rec s') = Some (w ++ concat (map as_bytes c)).
Proof.
  intros H Hq Hw. destruct e as [|m|i a]; simpl in H.
  - inversion H; subst. exists []. simpl. rewrite !app_nil_r.
    destruct (launch_rec s) as [-> | ->]; auto.
  - inversion H; subst. exists []. simpl. rewrite app_nil_r. auto.
  - destruct (threads s !! i) as [pc|]; [|discriminate].
    destruct (thread_step a pc (rec s)) as [[pc' p']|] eqn:Ht; [|discriminate].
    inversion H; subst. simpl. rewrite app_nil_r.
    apply (thread_step_stdin a pc (rec s) pc' p' w Ht); [|exact Hw].
    destruct a; exact Hq.
Qed.

(** X6: between two spawns, the child's stdin receives the messages sent
    on [p.stdin] in the order they were sent: every message leaves the
    queue from its front, and the bytes written are exactly the
    concatenation of the messages taken, with nothing between them (as
    long as no write fails). *)
Theorem stdin_fifo (es : list Event) (s s' : Sys) (w : list Byte.byte) :
  forallb quiet_event es = true ->
  stdin_writer (rec s) = Some w ->
  run es s = Some s' ->
  exists c, stdin_queue (rec s) ++ concat (map sent es) = c ++ stdin_queue (rec s') /\
            stdin_writer (rec s') = Some (w ++ concat (map as_bytes c)).
Proof.
  revert s w. induction es as [|e es IH]; simpl; intros s w Hq Hw H.
  - inversion H; subst. exists []. simpl. rewrite !app_nil_r. auto.
  - apply andb_prop in Hq as [Hq1 Hq2].
    destruct (step e s) as [s1|] eqn:Hs; [|discriminate].
    destruct (step_stdin _ _ _ _ Hs Hq1 Hw) as (c1 & Q1 & W1).
    destruct (IH s1 _ Hq2 W1 H) as (c2 & Q2 & W2).
    exists (c1 ++ c2). split.
    + rewrite app_assoc, Q1, <- app_assoc, Q2, app_assoc. reflexivity.
    + rewrite W2, map_app, concat_app, app_assoc. reflexivity.
Qed.

Definition cat_input : list Event :=
  [ESend "a"%string; ESend "bc"%string;
   EThread 0 (APoll [] [] true TWRunning); EThread 0 (APoll [] [] true TWRunning)].

Lemma stdin_fifo_witness :
  stdin_writer (rec (final cat_input ls_la_running)) = Some (as_bytes "abc"%string) /\
  exists c, stdin_queue (rec ls_la_running) ++ concat (map sent cat_input) =
              c ++ stdin_queue (rec (final cat_input ls_la_running)) /\
            stdin_writer (rec (final cat_input ls_la_running)) =
              Some ([] ++ concat (map as_bytes c)).
Proof.
  split; [vm_compute; reflexivity|].
  apply (stdin_fifo cat_input ls_la_running).
  - reflexivity.
  - vm_compute. reflexivity.
  - vm_compute. reflexivity.
Defined.

(** A poll of thread 0 while its child runs: the lines available on its
    stdout and stderr, the stdin write (if any) succeeding. *)
Definition running_poll (o : list string * list string) : Event :=
  EThread 0 (APoll (fst o) (snd o) true TWRunning).

(** One run of the child of thread 0: the pid the operating system gives,
    the output of each poll while it runs, the last lines read by the poll
    that observes its exit, and its exit code. *)
Record RunSpec := mk_RunSpec {
  run_pid : N;
  run_outs : list (list string * list string);
  run_last : list string * list string;
  run_code : option Z
}.

Definition child_run (r : RunSpec) : list Event :=
  EThread 0 (ASpawn (Some (run_pid r))) :: map running_poll (run_outs r) ++
  [EThread 0 (APoll (fst (run_last r)) (snd (run_last r)) true (TWExited (run_code r)))].

(** A run followed by a restart; and the last run, after which the thread
    decides. *)
Definition restart_cycle (r : RunSpec) : list Event :=
  child_run r ++ [EThread 0 ADecide; EThread 0 AWake].

Definition last_run (r : RunSpec) : list Event :=
  child_run r ++ [EThread 0 ADecide].

Lemma slice_from_1 (l : list string) : l <> [] -> slice_from 1 l = Some (drop 1 l).
Proof. unfold slice_from. destruct l; [congruence | reflexivity]. Qed.

Lemma run_cons_step e es s s1 : step e s = Some s1 -> run (e :: es) s = run es s1.
Proof. intros H. simpl. rewrite H. reflexivity. Qed.

Lemma run_polls outs s c :
  threads s = [PPoll c] ->
  exists s1, run (map running_poll outs) s = Some s1 /\ threads s1 = [PPoll c] /\
    lifecycle (rec s1) = lifecycle (rec s) /\ config (rec s1) = config (rec s).
Proof.
  revert s. induction outs as [|o outs IH]; intros s Ht.
  - exists s. auto.
  - destruct (poll_ok_step (rec s) c (fst o) (snd o) TWRunning) as (p2 & L & _ & Hs).
    pose proof (thread_step_config _ _ _ _ _ Hs) as C.
    assert (Hi : threads s !! 0%nat = Some (PPoll c)) by (rewrite Ht; reflexivity).
    assert (S : step (running_poll o) s = Some (mk_Sys p2 [PPoll c]))
      by (unfold running_poll; rewrite (step_thread _ _ _ _ _ _ Hi Hs), Ht; reflexivity).
    destruct (IH (mk_Sys p2 [PPoll c]) eq_refl) as (s1 & R & T & L1 & C1).
    exists s1. simpl map. rewrite (run_cons_step _ _ _ _ S).
    split; [exact R|]. split; [exact T|]. simpl in L1, C1.
    rewrite L1, C1. auto.
Qed.

Lemma run_child r s :
  threads s = [PSpawn] -> args (rec s) <> [] ->
  exists s1, run (child_run r) s = Some s1 /\
    threads s1 = [PDecide (ExOk (run_code r))] /\ config (rec s1) = config (rec s) /\
    restart_count (rec s1) = restart_count (rec s) /\
    exit_status (rec s1) = run_code r /\ pid (rec s1) = Some (run_pid r).
Proof.
  intros Ht Ha.
  assert (S1 : step (EThread 0 (ASpawn (Some (run_pid r)))) s =
               Some (mk_Sys (set_spawned (run_pid r) (rec s)) [PPoll (run_pid r)])).
  { destruct s as [p ts]. simpl in *. subst ts. simpl.
    rewrite (slice_from_1 _ Ha). reflexivity. }
  unfold child_run. rewrite (run_cons_step _ _ _ _ S1), run_app.
  destruct (run_polls (run_outs r)
              (mk_Sys (set_spawned (run_pid r) (rec s)) [PPoll (run_pid r)])
              (run_pid r) eq_refl) as (s2 & R2 & T2 & L2 & C2).
  rewrite R2.
  destruct (poll_ok_step (rec s2) (run_pid r) (fst (run_last r)) (snd (run_last r))
              (TWExited (run_code r))) as (p3 & L3 & _ & Ht3).
  pose proof (thread_step_config _ _ _ _ _ Ht3) as C3.
  assert (Hi : threads s2 !! 0%nat = Some (PPoll (run_pid r))) by (rewrite T2; reflexivity).
  pose proof (step_thread _ _ _ _ _ _ Hi Ht3) as S3.
  rewrite (run_cons_step _ _ _ _ S3). simpl run.
  eexists. split; [reflexivity|]. simpl.
  rewrite T2. split; [reflexivity|].
  split; [rewrite C3, C2; reflexivity|].
  apply lifecycle_eq in L3 as (_ & _ & R3 & _ & P3).
  apply lifecycle_eq in L2 as (_ & _ & R2' & _ & P2).
  split; [rewrite R3, R2'; reflexivity|]. split; [reflexivity|].
  rewrite P3, P2. reflexivity.
Qed.

Lemma config_max p q : config p = config q -> max_restart_count p = max_restart_count q.
Proof. unfold config. intros H. inversion H. reflexivity. Qed.

Lemma config_args p q : config p = config q -> args p = args q.
Proof. unfold config. intros H. inversion H. reflexivity. Qed.

Lemma run_restart_cycle r s :
  threads s = [PSpawn] -> args (rec s) <> [] ->
  restart_count (rec s) < max_restart_count (rec s) ->
  max_restart_count (rec s) < u64_modulus ->
  exists s1, run (restart_cycle r) s = Some s1 /\
    threads s1 = [PSpawn] /\ config (rec s1) = config (rec s) /\
    restart_count (rec s1) = restart_count (rec s) + 1 /\
    state (rec s1) = Restarting /\ exit_status (rec s1) = run_code r.
Proof.
  intros Ht Ha Hlt Hm.
  destruct (run_child r s Ht Ha) as (s1 & R1 & T1 & C1 & Rc1 & E1 & _).
  pose proof (config_max _ _ C1) as M1.
  unfold restart_cycle. rewrite run_app, R1.
  assert (S2 : step (EThread 0 ADecide) s1 =
               Some (mk_Sys (set_restarting (rec s1))
                            [PSleep (restart_delay (rec s1))])).
  { simpl. rewrite T1. simpl.
    assert (Le : (max_restart_count (rec s1) <=? restart_count (rec s1)) = false)
      by (apply N.leb_gt; lia).
    rewrite Le. reflexivity. }
  rewrite (run_cons_step _ _ _ _ S2).
  eexists. split; [reflexivity|]. simpl.
  split; [reflexivity|]. split; [exact C1|].
  split; [unfold u64_add; rewrite N.mod_small; lia|].
  split; [reflexivity | exact E1].
Qed.

Lemma run_last_run r s :
  threads s = [PSpawn] -> args (rec s) <> [] ->
  max_restart_count (rec s) <= restart_count (rec s) ->
  exists s1, run (last_run r) s = Some s1 /\
    threads s1 = [PDone] /\ state (rec s1) = Failed /\
    restart_count (rec s1) = restart_count (rec s) /\
    exit_status (rec s1) = run_code r /\ pid (rec s1) = Some (run_pid r).
Proof.
  intros Ht Ha Hle.
  destruct (run_child r s Ht Ha) as (s1 & R1 & T1 & C1 & Rc1 & E1 & P1).
  pose proof (config_max _ _ C1) as M1.
  unfold last_run. rewrite run_app, R1.
  assert (S2 : step (EThread 0 ADecide) s1 =
               Some (mk_Sys (set_state Failed (rec s1)) [PDone])).
  { simpl. rewrite T1. simpl.
    assert (Le : (max_restart_count (rec s1) <=? restart_count (rec s1)) = true)
      by (apply N.leb_le; lia).
    rewrite Le. reflexivity. }
  rewrite (run_cons_step _ _ _ _ S2).
  eexists. split; [reflexivity|]. simpl. auto.
Qed.

(** X7: a record launched once whose child keeps exiting (whatever it
    prints while it runs and whatever its exit codes) is restarted exactly
    [max_restart_count - restart_count] times, each time [Restarting] with
    the code of that run; the next exit makes it [Failed] with
    [restart_count = max_restart_count], the last exit code and the last
    child's pid recorded, and its thread returned. *)
Theorem budget_exhaustion (runs : list RunSpec) (last : RunSpec) (s : Sys) :
  threads s = [PSpawn] -> args (rec s) <> [] ->
  restart_count (rec s) + N.of_nat (length runs) = max_restart_count (rec s) ->
  max_restart_count (rec s) < u64_modulus ->
  exists s', run (flat_map restart_cycle runs ++ last_run last) s = Some s' /\
    state (rec s') = Failed /\
    restart_count (rec s') = max_restart_count (rec s) /\
    exit_status (rec s') = run_code last /\ pid (rec s') = Some (run_pid last) /\
    threads s' = [PDone].
Proof.
  revert s. induction runs as [|r runs IH]; intros s Ht Ha Hc Hm.
  - simpl in Hc. cbn [flat_map]. rewrite app_nil_l.
    destruct (run_last_run last s Ht Ha ltac:(lia))
      as (s1 & R & T & St & Rc & E & P).
    exists s1. repeat split; auto. lia.
  - simpl in Hc. cbn [flat_map].
    destruct (run_restart_cycle r s Ht Ha ltac:(lia) Hm)
      as (s1 & R & T & C & Rc & _ & _).
    pose proof (config_max _ _ C) as M. pose proof (config_args _ _ C) as A.
    rewrite <- app_assoc, run_app, R.
    destruct (IH s1 T ltac:(rewrite A; exact Ha) ltac:(lia) ltac:(lia))
      as (s2 & R2 & St & Rc2 & E & P & T2).
    exists s2. repeat split; auto. lia.
Qed.

(** Five runs of [ls -la] printing their listing (one of them also a line
    on stderr, one killed by a signal), then a sixth. *)
Definition ls_la_runs : list RunSpec :=
  [mk_RunSpec 42 [(["total 0"%string], [])] (["."%string], []) (Some 0%Z);
   mk_RunSpec 43 [] (["total 0"%string; "."%string], []) (Some 0%Z);
   mk_RunSpec 44 [([], ["ls: warning"%string]); (["total 0"%string], [])] ([], []) (Some 2%Z);
   mk_RunSpec 45 [] ([], []) None;
   mk_RunSpec 46 [(["total 0"%string], [])] ([], []) (Some 0%Z)].

Definition ls_la_last : RunSpec := mk_RunSpec 47 [] (["total 0"%string], []) (Some 1%Z).

Lemma budget_exhaustion_witness :
  exists s', run (flat_map restart_cycle ls_la_runs ++ last_run ls_la_last)
               (launch (init_sys ls_la)) = Some s' /\
    state (rec s') = Failed /\
    restart_count (rec s') = max_restart_count (rec (launch (init_sys ls_la))) /\
    exit_status (rec s') = Some 1%Z /\ pid (rec s') = Some 47 /\
    threads s' = [PDone].
Proof.
  apply (budget_exhaustion ls_la_runs ls_la_last (launch (init_sys ls_la))).
  - vm_compute. reflexivity.
  - vm_compute. discriminate.
  - vm_compute. reflexivity.
  - vm_compute. reflexivity.
Defined.

(** X8: in every interleaving from [Overlord::new], [quit()] returns only
    if the actor has received every command sent, the [Quit] last, and has
    returned from its loop; then the list is exactly the handles passed to
    [spawn], in order, each pushed just before its launch.  When the caller
    panics in [spawn] or [quit], the actor has panicked (in a [launch]); and
    once the actor has panicked, [quit()] can never return. *)
Theorem overlord_session (st : gmap nat Sys) (ws : list WEvent) (W : World) :
  run_world ws (overlord_new st) = Some W ->
  (caller W = CReturned ->
     status W = AExited /\ chan W = [] /\ received_cmds W = sent_cmds W /\
     processes W = spawned (sent_cmds W) /\
     trace W = pushes_then_launches (spawned (sent_cmds W))) /\
  (caller W = CPanicked -> status W = ADead) /\
  (status W = ADead -> forall ws' W', run_world ws' W = Some W' -> caller W' <> CReturned).
Proof.
  intros H. pose proof (run_world_inv _ _ _ H (world_inv_new st)) as I.
  split; [|split].
  - intros Hc. pose proof (inv_returned W I Hc) as E.
    destruct (inv_recv W I) as [[_ Hn] | (_ & _ & Ch)]; [contradiction|].
    assert (R : received_cmds W = sent_cmds W)
      by (rewrite (inv_fifo W I), Ch, app_nil_r; reflexivity).
    split; [exact E|]. split; [exact Ch|]. split; [exact R|].
    rewrite <- R. split; [exact (inv_list W I) | exact (inv_trace W I)].
  - exact (inv_panicked W I).
  - intros Hd ws' W' H' Hc.
    destruct (run_world_finished ws' W W' H' (or_intror Hd)) as (E & _).
    assert (H2 : run_world (ws ++ ws') (overlord_new st) = Some W')
      by (rewrite run_world_app, H; exact H').
    pose proof (inv_returned W' (run_world_inv _ _ _ H2 (world_inv_new st)) Hc) as E'.
    congruence.
Qed.

(** [ls -la] and [echo test] spawned, then [quit()], with the first child
    spawned before the actor is done. *)
Definition two_records : gmap nat Sys :=
  <[1%nat := init_sys echo_test]> (<[0%nat := init_sys ls_la]> ∅).

Definition two_spawns_session : list WEvent :=
  [WSpawn 0; WSpawn 1; WRecv true; WQuit; WStore;
   WSup 0 (EThread 0 (ASpawn (Some 42))); WRecv true; WStore; WRecv true; WJoin].

Lemma overlord_session_witness :
  caller (final_world two_spawns_session (overlord_new two_records)) = CReturned /\
  processes (final_world two_spawns_session (overlord_new two_records)) = [0; 1]%nat /\
  processes (final_world two_spawns_session (overlord_new two_records)) =
    spawned (sent_cmds (final_world two_spawns_session (overlord_new two_records))).
Proof.
  split; [vm_compute; reflexivity|]. split; [vm_compute; reflexivity|].
  destruct (overlord_session two_records two_spawns_session
              (final_world two_spawns_session (overlord_new two_records))
              ltac:(vm_compute; reflexivity)) as [P _].
  apply P. vm_compute. reflexivity.
Defined.

Lemma poisoned_In s : poisoned s = true <-> In PPanic (threads s).
Proof.
  unfold poisoned. rewrite existsb_exists. split.
  - intros (x & Hx & E). destruct x; try discriminate. exact Hx.
  - intros Hx. exists PPanic. auto.
Qed.

Lemma In_insert_other (l : list PC) i x y z :
  In x l -> l !! i = Some y -> y <> x -> In x (<[i := z]> l).
Proof.
  revert i. induction l as [|a l IH]; intros [|i] Hx Hi Hne; simpl in *; try discriminate.
  - injection Hi as ->. destruct Hx as [-> | Hx]; [contradiction|]. right. exact Hx.
  - destruct Hx as [-> | Hx]; [left; reflexivity | right; eapply IH; eauto].
Qed.

(** A poisoned lock stays poisoned: no event removes a panicked thread. *)
Lemma step_poisoned e s s' : step e s = Some s' -> poisoned s = true -> poisoned s' = true.
Proof.
  intros H P. apply poisoned_In in P. apply poisoned_In.
  apply step_shape in H
    as [[-> ->] | [[m [-> [_ ->]]] | (i & a & pc & pc' & -> & Hi & Ht & ->)]].
  - rewrite launch_threads. apply in_or_app. left. exact P.
  - exact P.
  - eapply In_insert_other; eauto. intros ->. rewrite thread_step_panic in Ht. discriminate.
Qed.

Lemma store_handle_threads s s' : store_handle s = Some s' -> threads s' = threads s.
Proof. unfold store_handle. destruct (poisoned s); intros H; inversion H; reflexivity. Qed.

Lemma insert_poisoned (st : gmap nat Sys) h h0 s s0 v :
  st !! h = Some s -> poisoned s = true -> st !! h0 = Some s0 ->
  (poisoned s0 = true -> poisoned v = true) ->
  exists s', <[h0 := v]> st !! h = Some s' /\ poisoned s' = true.
Proof.
  intros Hs P Hs0 Hv. destruct (decide (h = h0)) as [-> | Ne].
  - rewrite lookup_insert_eq. exists v. split; [reflexivity|].
    apply Hv. congruence.
  - rewrite lookup_insert_ne by congruence. eauto.
Qed.

Lemma world_step_poisoned w W W' h s :
  world_step w W = Some W' -> store W !! h = Some s -> poisoned s = true ->
  exists s', store W' !! h = Some s' /\ poisoned s' = true.
Proof.
  destruct W as [ch ps st tr stt cl sn rc]; simpl.
  destruct w as [b| |h0 e|h0| |]; simpl; intros H Hs P.
  - destruct stt; try discriminate. destruct ch as [|[h0|] q]; try discriminate.
    + destruct (st !! h0) as [s0|] eqn:Hs0; [|discriminate].
      injection H as <-. simpl. destruct b; [|eauto].
      eapply insert_poisoned; eauto. intros P0. rewrite poisoned_add_thread. exact P0.
    + injection H as <-. simpl. eauto.
  - destruct stt as [|h0| |]; try discriminate.
    destruct (st !! h0) as [s0|] eqn:Hs0; [|discriminate].
    destruct (store_handle s0) as [s1|] eqn:Hh; injection H as <-; simpl; [|eauto].
    eapply insert_poisoned; eauto. intros P0.
    unfold poisoned. rewrite (store_handle_threads _ _ Hh). exact P0.
  - destruct (st !! h0) as [s0|] eqn:Hs0; [|discriminate].
    destruct (step e s0) as [s1|] eqn:Hst; [|discriminate].
    injection H as <-. simpl.
    eapply insert_poisoned; eauto. intros P0. eapply step_poisoned; eauto.
  - destruct cl; try discriminate.
    destruct (receiver_gone stt); injection H as <-; simpl; eauto.
  - destruct cl; try discriminate.
    destruct (receiver_gone stt); injection H as <-; simpl; eauto.
  - destruct cl, stt; try discriminate; injection H as <-; simpl; eauto.
Qed.

(** X9: a record's lock, once poisoned by a panic of one of its
    supervision threads, stays poisoned whatever happens next; and when
    the actor launches that record again, its [self.lock().unwrap()] at
    line 248 panics: the actor dies, and from then on it receives no
    command and the list never changes (so [quit()] cannot return, X8). *)
Theorem poisoned_record_kills_actor (ws : list WEvent) (W W' : World) (h : nat) (s : Sys) :
  store W !! h = Some s -> poisoned s = true -> run_world ws W = Some W' ->
  (exists s', store W' !! h = Some s' /\ poisoned s' = true) /\
  (status W' = ALaunching h ->
     exists W'', world_step WStore W' = Some W'' /\ status W'' = ADead /\
       forall ws' W3, run_world ws' W'' = Some W3 ->
         status W3 = ADead /\ received_cmds W3 = received_cmds W'' /\
         processes W3 = processes W'').
Proof.
  intros Hs P H.
  assert (Q : exists s', store W' !! h = Some s' /\ poisoned s' = true).
  { revert W s Hs P H. induction ws as [|w ws IH]; simpl; intros W s Hs P H.
    - injection H as <-. eauto.
    - destruct (world_step w W) as [W1|] eqn:Hw; [|discriminate].
      destruct (world_step_poisoned _ _ _ _ _ Hw Hs P) as (s1 & Hs1 & P1).
      exact (IH W1 s1 Hs1 P1 H). }
  split; [exact Q|].
  intros Hl. destruct Q as (s' & Hs' & P').
  exists (set_status ADead W').
  split; [simpl; rewrite Hl, Hs'; unfold store_handle; rewrite P'; reflexivity|].
  split; [reflexivity|].
  intros ws' W3 H3.
  destruct (run_world_finished ws' _ W3 H3 (or_intror eq_refl)) as (E1 & E2 & E3 & _).
  auto.
Qed.

(** The missing-binary registry before the second [Spawn] is received: its
    first launch done and its thread panicked on the failed spawn. *)
Definition missing_binary_poisoned : World :=
  final_world [WSpawn 0; WSpawn 0; WRecv true; WStore; WSup 0 (EThread 0 (ASpawn None))]
    (overlord_new (<[0%nat := init_sys ls_la]> ∅)).

Lemma poisoned_record_kills_actor_witness :
  status (final_world [WRecv true] missing_binary_poisoned) = ALaunching 0 /\
  exists W'', world_step WStore (final_world [WRecv true] missing_binary_poisoned) = Some W'' /\
    status W'' = ADead /\
    forall ws' W3, run_world ws' W'' = Some W3 ->
      status W3 = ADead /\ received_cmds W3 = received_cmds W'' /\
      processes W3 = processes W''.
Proof.
  split; [vm_compute; reflexivity|].
  apply (poisoned_record_kills_actor [WRecv true] missing_binary_poisoned
           (final_world [WRecv true] missing_binary_poisoned) 0
           (default (init_sys ls_la) (store missing_binary_poisoned !! 0%nat))).
  - vm_compute. reflexivity.
  - vm_compute. reflexivity.
  - vm_compute. reflexivity.
  - vm_compute. reflexivity.
Defined.
